(** * The formula front end of the spreadsheet: [src/ss/formula.js]

    A shallow embedding of the tokenizer ([tokenize], a generator driven
    by the global regular expression [LEXER]) and of the recursive-descent
    [Parser] class, followed by the properties of the formula language that
    the specification states about them.

    JavaScript strings are sequences of UTF-16 code units; the regular
    expressions of the file carry no [u] flag, so they work on code units
    too.  A string is therefore a list of code units, each a number. *)

From Stdlib Require Import List NArith Arith Bool Lia Permutation.
From Stdlib Require String Ascii DecimalString.
Import String.StringSyntax.
Delimit Scope string_scope with string.
Import ListNotations.

Set Warnings "-register-all".

(** ** Strings *)

Definition char := N.
Definition str := list char.

(** The code units of an ASCII literal. *)
Definition js (s : String.string) : str :=
  map Ascii.N_of_ascii (String.list_ascii_of_string s).
Arguments js s%_string.

Definition dquote : char := 34%N.
Definition squote : char := 39%N.
Definition hyphen : char := 45%N.

(** [s.charAt(i)]: the one-unit string at [i], the empty string out of range. *)
Definition charAt (s : str) (i : nat) : str :=
  match nth_error s i with
  | Some c => [c]
  | None => []
  end.

Fixpoint prefixb (p s : str) : bool :=
  match p, s with
  | [], _ => true
  | x :: p', y :: s' => N.eqb x y && prefixb p' s'
  | _ :: _, [] => false
  end.

(** [s.includes(p)] *)
Fixpoint includes (s p : str) : bool :=
  prefixb p s ||
  match s with
  | [] => false
  | _ :: s' => includes s' p
  end.

(** [parts.join(sep)] *)
Fixpoint join (sep : str) (parts : list str) : str :=
  match parts with
  | [] => []
  | [p] => p
  | p :: rest => p ++ sep ++ join sep rest
  end.

(** ** Character classes of the regular expressions *)

Definition in_range (lo hi c : N) : bool := (N.leb lo c && N.leb c hi)%bool.

(** [[a-zA-Z]] *)
Definition is_alpha (c : char) : bool :=
  in_range 97%N 122%N c || in_range 65%N 90%N c.

(** [[0-9]] *)
Definition is_digit (c : char) : bool := in_range 48%N 57%N c.

(** [[a-zA-Z0-9]] *)
Definition is_alnum (c : char) : bool := is_alpha c || is_digit c.

(** [[a-zA-Z0-9:-]] *)
Definition is_value_char (c : char) : bool :=
  is_alpha c || is_digit c || N.eqb c 58%N || N.eqb c hyphen.

(** A bare value that does not start with a hyphen: a number, a date, a
    cell reference, a range, a name. *)
Definition is_word (w : str) : bool :=
  match w with
  | c :: v => is_alnum c && forallb is_value_char v
  | [] => false
  end.

(** Any code unit but the double quote: the class of the quoted body. *)
Definition is_not_quote (c : char) : bool := negb (N.eqb c dquote).

(** [\s]: the white space and line terminator code units of ECMAScript. *)
Definition is_space (c : char) : bool :=
  in_range 9%N 13%N c || N.eqb c 32%N || N.eqb c 160%N || N.eqb c 5760%N
  || in_range 8192%N 8202%N c || N.eqb c 8232%N || N.eqb c 8233%N
  || N.eqb c 8239%N || N.eqb c 8287%N || N.eqb c 12288%N || N.eqb c 65279%N.

(** The longest prefix of [l] within a class, and what follows it. *)
Fixpoint span (p : char -> bool) (l : str) : str * str :=
  match l with
  | [] => ([], [])
  | c :: l' =>
      if p c then let (run, rest) := span p l' in (c :: run, rest)
      else ([], l)
  end.

(** A one-character pattern such as [\(]. *)
Definition lit (c : char) (l : str) : option str :=
  match l with
  | x :: _ => if N.eqb x c then Some [x] else None
  | [] => None
  end.

(** [[class]+] as the last item of an alternative: greedy, at least one. *)
Definition many1 (p : char -> bool) (l : str) : option str :=
  match fst (span p l) with
  | [] => None
  | run => Some run
  end.

(** ** Token kinds and the lexer's alternatives *)

Inductive kind : Set :=
| lparen | rparen | plus | minus | value | quoted
| times | divided | comma | whitespace | eof.

Definition kind_eqb (a b : kind) : bool :=
  match a, b with
  | lparen, lparen | rparen, rparen | plus, plus | minus, minus
  | value, value | quoted, quoted | times, times | divided, divided
  | comma, comma | whitespace, whitespace | eof, eof => true
  | _, _ => false
  end.

(** The pattern of each named group of [LEXER], matched at the head of the
    text that is left.  The body of the quoted group is greedy and is
    followed by a quote: its run stops at a quote or at the end of the
    string, so giving characters back never helps, and the group matches
    exactly when the run is not empty and a quote follows.  [eof] is no
    group. *)
Definition match_kind (k : kind) (l : str) : option str :=
  match k with
  | lparen => lit 40%N l
  | rparen => lit 41%N l
  | plus => lit 43%N l
  | minus => lit hyphen l
  | value => many1 is_value_char l
  | quoted =>
      match l with
      | q :: l' =>
          if N.eqb q dquote then
            match span is_not_quote l' with
            | ((_ :: _) as body, q' :: _) => Some (q :: body ++ [q'])
            | _ => None
            end
          else None
      | [] => None
      end
  | times => lit 42%N l
  | divided => lit 47%N l
  | comma => lit 44%N l
  | whitespace => many1 is_space l
  | eof => None
  end.

(** The alternatives of [LEXER], in the order of the source. *)
Definition LEXER : list kind :=
  [lparen; rparen; plus; minus; value; quoted; times; divided; comma;
   whitespace].

(** An alternation tries its branches from left to right. *)
Fixpoint first_match (alts : list kind) (l : str) : option (kind * str) :=
  match alts with
  | [] => None
  | k :: alts' =>
      match match_kind k l with
      | Some t => Some (k, t)
      | None => first_match alts' l
      end
  end.

(** [FUNCTION_NAME.test(name)] for [/^[a-zA-Z]+$/]. *)
Definition FUNCTION_NAME (name : str) : bool :=
  match name with
  | [] => false
  | _ => forallb is_alpha name
  end.

Definition TOKEN_TYPES (k : kind) : str :=
  match k with
  | lparen => js "("
  | rparen => js ")"
  | plus => js "+"
  | minus => js "-"
  | value => js "a literal value"
  | quoted => js "a quoted string"
  | times => js "*"
  | divided => js "/"
  | comma => js ","
  | whitespace => js "whitespace"
  | eof => js "[end of string]"
  end.

(** ** [LEXER.exec] *)

(** The match object: where the match starts and, for every named group in
    the order of definition, what it captured ([None] for [undefined]). *)
Record RegExpMatch := { index : nat; groups : list (kind * option str) }.

Definition groups_of (k : kind) (t : str) : list (kind * option str) :=
  map (fun g => (g, if kind_eqb g k then Some t else None)) LEXER.

(** The leftmost position, from the head of [l] (at offset [i]) on, where an
    alternative matches. *)
Fixpoint search (l : str) (i : nat) : option (nat * (kind * str)) :=
  match first_match LEXER l with
  | Some m => Some (i, m)
  | None =>
      match l with
      | [] => None
      | _ :: l' => search l' (S i)
      end
  end.

(** [LEXER.exec(code)] with the [g] flag: the search starts at [lastIndex];
    the result comes with the new [lastIndex], the end of the match, or 0
    when there is none. *)
Definition exec (code : str) (lastIndex : nat) : option RegExpMatch * nat :=
  if length code <? lastIndex then (None, 0)
  else
    match search (skipn lastIndex code) lastIndex with
    | Some (i, (k, t)) =>
        (Some {| index := i; groups := groups_of k t |}, i + length t)
    | None => (None, 0)
    end.

(** ** [tokenize] *)

Record Token := { type : kind; text : str }.

Inductive JsError :=
| Error (message : str)
| ReferenceError (message : str).

Definition message_of (e : JsError) : str :=
  match e with
  | Error m | ReferenceError m => m
  end.

(** Where the generator stands: not started, suspended at its [yield] (with
    [LEXER.lastIndex] and its locals), or finished. *)
Inductive GenPc :=
| GenStart
| GenYield (lastIndex expectedNextToken : nat) (type : kind) (text : str)
| GenDone.

Record Generator := { gen_code : str; gen_pc : GenPc }.

(** What a call of [next] on an iterator does: it yields a token, reports
    that the iteration is done, or throws; the iterator moves on. *)
Inductive IterResult (I : Type) :=
| Yielded (tok : Token) (it : I)
| Finished (it : I)
| Raised (e : JsError).

Arguments Yielded {I} tok it.
Arguments Finished {I} it.
Arguments Raised {I} e.

(** The [for (let groupname in m.groups)] loop: the first group that is not
    [undefined]. *)
Fixpoint first_group (gs : list (kind * option str)) : option (kind * str) :=
  match gs with
  | [] => None
  | (g, Some t) :: _ => Some (g, t)
  | (_, None) :: gs' => first_group gs'
  end.

(** One turn of the [while] loop, from its test to the [yield], a [throw] or
    the end of the function.  [vars] holds [type] and [text], which are
    declared with [var] and so keep their values from one turn to the
    next. *)
Definition tokenize_loop (code : str) (lastIndex expectedNextToken : nat)
    (vars : option (kind * str)) : IterResult Generator :=
  match exec code lastIndex with
  | (Some m, lastIndex') =>
      if negb (index m =? expectedNextToken) then
        Raised (Error (js "Unexpected token " ++ charAt code expectedNextToken))
      else
        let vars' :=
          match first_group (groups m) with
          | Some v => Some v
          | None => vars
          end in
        match vars' with
        | None => Raised (Error (js "All groups empty!"))
        | Some (ty, tx) =>
            Yielded {| type := ty; text := tx |}
              {| gen_code := code;
                 gen_pc := GenYield lastIndex' expectedNextToken ty tx |}
        end
  | (None, _) =>
      if negb (expectedNextToken =? length code) then
        Raised (Error (js "Unexpected token end "
                         ++ charAt code expectedNextToken))
      else Finished {| gen_code := code; gen_pc := GenDone |}
  end.

(** [tokenize(code)] only creates the generator. *)
Definition tokenize (code : str) : Generator :=
  {| gen_code := code; gen_pc := GenStart |}.

(** [tokenIter.next()] *)
Definition next (g : Generator) : IterResult Generator :=
  match gen_pc g with
  | GenStart => tokenize_loop (gen_code g) 0 0 None
  | GenYield lastIndex expectedNextToken ty tx =>
      tokenize_loop (gen_code g) lastIndex (expectedNextToken + length tx)
        (Some (ty, tx))
  | GenDone => Finished g
  end.

(** The whole stream, as [[...tokenize(code)]] would collect it: the tokens
    yielded, and the error that ended the stream if one did. *)
Fixpoint drain (fuel : nat) (g : Generator)
    : option (list Token * option JsError) :=
  match fuel with
  | 0 => None
  | S fuel' =>
      match next g with
      | Yielded tok g' =>
          match drain fuel' g' with
          | Some (toks, e) => Some (tok :: toks, e)
          | None => None
          end
      | Finished _ => Some ([], None)
      | Raised e => Some ([], Some e)
      end
  end.

Definition tokens (code : str) : option (list Token * option JsError) :=
  drain (S (length code)) (tokenize code).

(** ** The expression tree

    A JavaScript value built by the parser: a string, or an array whose
    first item is the string of an operator or of a function name. *)
Inductive term :=
| Str (s : str)
| Arr (items : list term).

(** ** Outcomes

    A method reads and writes the fields of [this] and may throw: it is a
    function from the state of the parser to an outcome.  The recursion of
    the grammar is not structural, so the methods take a bound on the depth
    of calls, and running out of it is an outcome of its own. *)
Inductive outcome (S A : Type) :=
| Ret (a : A) (s : S)
| Throw (e : JsError)
| OutOfFuel.

Arguments Ret {S A} a s.
Arguments Throw {S A} e.
Arguments OutOfFuel {S A}.

(** ** The [Parser] class

    The class works with any iterator of tokens: the constructor is given
    one and the only use made of it is [this.tokenIter.next()].  The model
    takes the type of the iterator and its [next] as parameters; [parse]
    passes the generator of [tokenize]. *)
Module Parser.

Section Iterator.

Context {I : Type} (next : I -> IterResult I).

Record t := { tokenIter : I; attemptedTypes : list kind; cur : Token }.

Definition M (A : Type) := t -> outcome t A.

Definition ret {A} (a : A) : M A := fun p => Ret a p.

Definition bind {A B} (m : M A) (k : A -> M B) : M B :=
  fun p =>
    match m p with
    | Ret a p' => k a p'
    | Throw e => Throw e
    | OutOfFuel => OutOfFuel
    end.

Definition throw {A} (e : JsError) : M A := fun _ => Throw e.

Notation "x <- m ;; k" := (bind m (fun x => k))
  (at level 61, m at next level, right associativity).
Notation "m ;;; k" := (bind m (fun _ => k))
  (at level 61, right associativity).

(** [attemptedTypes.add(type)]: a [Set] keeps the order of insertion. *)
Definition add (ty : kind) (s : list kind) : list kind :=
  if existsb (kind_eqb ty) s then s else s ++ [ty].

(** [advance()] reads [this.tokenIter] only and overwrites the two other
    fields, so it is given the iterator; the constructor calls it before
    [this.cur] has a value. *)
Fixpoint advance (fuel : nat) (g : I) : outcome t unit :=
  match fuel with
  | 0 => OutOfFuel
  | S fuel' =>
      match next g with
      | Raised e => Throw e
      | Finished g' =>
          Ret tt {| tokenIter := g'; attemptedTypes := [];
                    cur := {| type := eof; text := [] |} |}
      | Yielded tok g' =>
          if kind_eqb (type tok) whitespace then advance fuel' g'
          else Ret tt {| tokenIter := g'; attemptedTypes := []; cur := tok |}
      end
  end.

(** [new Parser(tokenIter)] *)
Definition new (fuel : nat) (tokenIter : I) : outcome t unit :=
  advance fuel tokenIter.

Definition consume (fuel : nat) (ty : kind) : M (option Token) :=
  fun p =>
    let cur := cur p in
    if kind_eqb (type cur) ty then
      match advance fuel (tokenIter p) with
      | Ret _ p' => Ret (Some cur) p'
      | Throw e => Throw e
      | OutOfFuel => OutOfFuel
      end
    else
      Ret None {| tokenIter := tokenIter p;
                  attemptedTypes := add ty (attemptedTypes p);
                  cur := cur |}.

(** The error of [throwUnexpectedToken()]. *)
Definition unexpectedToken (p : t) : JsError :=
  let desc := join (js ", ") (map TOKEN_TYPES (attemptedTypes p)) in
  let got :=
    if kind_eqb (type (cur p)) eof then TOKEN_TYPES eof
    else [squote] ++ text (cur p) ++ [squote] in
  Error (js "Expected one of: " ++ desc ++ js "; got " ++ got).

Definition throwUnexpectedToken {A} : M A :=
  fun p => Throw (unexpectedToken p).

Definition expect (fuel : nat) (ty : kind) : M unit :=
  tok <- consume fuel ty ;;
  match tok with
  | Some _ => ret tt
  | None => throwUnexpectedToken
  end.

(** [text.replace(/(^Q|Q$)/g, '')] where Q is the double quote: a quote at
    the start and a quote at the end are removed. *)
Definition strip_quotes (s : str) : str :=
  let s1 :=
    match s with
    | c :: r => if N.eqb c dquote then r else s
    | [] => []
    end in
  match rev s1 with
  | c :: r => if N.eqb c dquote then rev r else s1
  | [] => []
  end.

(** The grammar.  Each [while (true)] loop is a function of the term built
    so far.  In [arglist], the body of the loop is
    [tm.push(this.consume(expr))]: [expr] is a method, not a variable, and
    no binding of that name is in scope, so evaluating the argument throws
    a [ReferenceError] before [consume] or [push] is called. *)
Fixpoint expr (n : nat) : M term :=
  match n with
  | 0 => fun _ => OutOfFuel
  | S n => sum n
  end
with sum (n : nat) : M term :=
  match n with
  | 0 => fun _ => OutOfFuel
  | S n => tm <- summand n ;; sum_loop n tm
  end
with sum_loop (n : nat) (tm : term) : M term :=
  match n with
  | 0 => fun _ => OutOfFuel
  | S n =>
      op <- consume n plus ;;
      match op with
      | Some _ => rhs <- summand n ;; sum_loop n (Arr [Str (js "+"); tm; rhs])
      | None =>
          op <- consume n minus ;;
          match op with
          | Some _ =>
              rhs <- summand n ;; sum_loop n (Arr [Str (js "-"); tm; rhs])
          | None => ret tm
          end
      end
  end
with summand (n : nat) : M term :=
  match n with
  | 0 => fun _ => OutOfFuel
  | S n => tm <- factor n ;; summand_loop n tm
  end
with summand_loop (n : nat) (tm : term) : M term :=
  match n with
  | 0 => fun _ => OutOfFuel
  | S n =>
      op <- consume n times ;;
      match op with
      | Some _ =>
          rhs <- factor n ;; summand_loop n (Arr [Str (js "*"); tm; rhs])
      | None =>
          op <- consume n divided ;;
          match op with
          | Some _ =>
              rhs <- factor n ;; summand_loop n (Arr [Str (js "/"); tm; rhs])
          | None => ret tm
          end
      end
  end
with factor (n : nat) : M term :=
  match n with
  | 0 => fun _ => OutOfFuel
  | S n =>
      tm <- consume n value ;;
      match tm with
      | Some tm =>
          lp <- consume n lparen ;;
          match lp with
          | Some _ =>
              let name := text tm in
              if negb (FUNCTION_NAME name) then
                throw (Error (name ++ js " is not a valid function name"))
              else
                args <- arglist n ;;
                expect n rparen ;;;
                ret (Arr (Str name :: args))
          | None => ret (Str (text tm))
          end
      | None =>
          tm <- consume n quoted ;;
          match tm with
          | Some tm => ret (Str (strip_quotes (text tm)))
          | None =>
              lp <- consume n lparen ;;
              match lp with
              | Some _ => tm <- expr n ;; expect n rparen ;;; ret tm
              | None => throwUnexpectedToken
              end
          end
      end
  end
with arglist (n : nat) : M (list term) :=
  match n with
  | 0 => fun _ => OutOfFuel
  | S n =>
      first <- expr n ;;
      let tm := [first] in
      comma_tok <- consume n comma ;;
      match comma_tok with
      | Some _ => throw (ReferenceError (js "expr is not defined"))
      | None => ret tm
      end
  end.

Definition toplevel (n : nat) : M term :=
  tm <- expr n ;; expect n eof ;;; ret tm.

Definition parse (n : nat) : M term := toplevel n.

End Iterator.

Arguments t : clear implicits.
Arguments M : clear implicits.

End Parser.

(** ** [parse] *)

Inductive completion (A : Type) :=
| Returns (a : A)
| Throws (e : JsError)
| Exhausted.

Arguments Returns {A} a.
Arguments Throws {A} e.
Arguments Exhausted {A}.

(** A depth of calls that no formula of this length exceeds
    (see [parse_total]). *)
Definition fuel_for (code : str) : nat := 4 * length code + 4.

(** [new Parser(tokenIter).parse()] *)
Definition run {I : Type} (next : I -> IterResult I) (fuel : nat)
    (tokenIter : I) : completion term :=
  match Parser.new next fuel tokenIter with
  | Ret _ p =>
      match Parser.parse next fuel p with
      | Ret tm _ => Returns tm
      | Throw e => Throws e
      | OutOfFuel => Exhausted
      end
  | Throw e => Throws e
  | OutOfFuel => Exhausted
  end.

Definition parse_with (fuel : nat) (code : str) : completion term :=
  run next fuel (tokenize code).

Definition parse (code : str) : completion term :=
  parse_with (fuel_for code) code.

(** ** Where a generator stands in its text *)

(** The offset at which the scan goes on at the next call of [next]. *)
Definition scan_pos (g : Generator) : nat :=
  match gen_pc g with
  | GenStart => 0
  | GenYield _ expectedNextToken _ tx => expectedNextToken + length tx
  | GenDone => length (gen_code g)
  end.

(** What holds of a suspended generator: [LEXER.lastIndex] is the end of the
    token it has just yielded, within the text. *)
Definition gen_ok (g : Generator) : Prop :=
  match gen_pc g with
  | GenYield lastIndex expectedNextToken _ tx =>
      lastIndex = expectedNextToken + length tx /\
      lastIndex <= length (gen_code g)
  | _ => True
  end.

(** ** The order of priority as the specification words it

    The kinds of one character (the two parentheses, the operators and the
    comma) come first, in some order, then the bare value, the quoted text
    and white space. *)
Definition single_kinds : list kind :=
  [lparen; rparen; plus; minus; times; divided; comma].

Definition spec_priority (singles : list kind) : list kind :=
  singles ++ [value; quoted; whitespace].

(** The offset of the [i]-th token of a stream: the length of the texts
    before it. *)
Definition offset_of (toks : list Token) (i : nat) : nat :=
  length (concat (map text (firstn i toks))).

(** The states of the generator of [tokenize(code)] that calls of [next]
    lead to. *)
Inductive reachable (code : str) : Generator -> Prop :=
| reachable_start : reachable code (tokenize code)
| reachable_next (g g' : Generator) (tok : Token) :
    reachable code g -> next g = Yielded tok g' -> reachable code g'.

(** The decimal digits of an offset, as [String(i)] gives them. *)
Definition decimal (i : nat) : str :=
  js (DecimalString.NilEmpty.string_of_uint (Nat.to_uint i)).

(** The operators of the two tiers and the symbols they are written with. *)
Inductive additive := Add | Sub.
Inductive multiplicative := Mul | Div.

Definition additive_kind (o : additive) : kind :=
  match o with Add => plus | Sub => minus end.

Definition multiplicative_kind (o : multiplicative) : kind :=
  match o with Mul => times | Div => divided end.

Definition additive_symbol (o : additive) : str :=
  TOKEN_TYPES (additive_kind o).

Definition multiplicative_symbol (o : multiplicative) : str :=
  TOKEN_TYPES (multiplicative_kind o).

(** ** A stream scanned beforehand

    An iterator over tokens that are known already: the tokens still to
    come and, when the scan stopped on an error, that error, which is
    thrown once the tokens are used up. *)
Definition Stream : Type := list Token * option JsError.

Definition next_stream (s : Stream) : IterResult Stream :=
  match s with
  | (tok :: toks, e) => Yielded tok (toks, e)
  | ([], None) => Finished ([], None)
  | ([], Some e) => Raised e
  end.

Definition parse_stream (fuel : nat) (s : Stream) : completion term :=
  run next_stream fuel s.

(** Two iterators go together, each in a state related to the state of the
    other by [R]: their calls of [next] do the same and leave them in
    related states. *)
Definition similar {I J : Type} (R : I -> J -> Prop)
    (r : IterResult I) (r' : IterResult J) : Prop :=
  match r, r' with
  | Yielded tok i, Yielded tok' j => tok = tok' /\ R i j
  | Finished i, Finished j => R i j
  | Raised e, Raised e' => e = e'
  | _, _ => False
  end.

Definition similar_parsers {I J : Type} (R : I -> J -> Prop)
    (p : Parser.t I) (q : Parser.t J) : Prop :=
  R (Parser.tokenIter p) (Parser.tokenIter q) /\
  Parser.attemptedTypes p = Parser.attemptedTypes q /\
  Parser.cur p = Parser.cur q.

Definition similar_outcomes {I J A : Type} (R : I -> J -> Prop)
    (r : outcome (Parser.t I) A) (r' : outcome (Parser.t J) A) : Prop :=
  match r, r' with
  | Ret a p, Ret a' q => a = a' /\ similar_parsers R p q
  | Throw e, Throw e' => e = e'
  | OutOfFuel, OutOfFuel => True
  | _, _ => False
  end.

Definition grammar_similar {I J : Type} (next : I -> IterResult I)
    (next' : J -> IterResult J) (R : I -> J -> Prop) (n : nat) : Prop :=
  forall p q, similar_parsers R p q ->
    similar_outcomes R (Parser.expr next n p) (Parser.expr next' n q) /\
    similar_outcomes R (Parser.sum next n p) (Parser.sum next' n q) /\
    (forall tm, similar_outcomes R (Parser.sum_loop next n tm p)
                  (Parser.sum_loop next' n tm q)) /\
    similar_outcomes R (Parser.summand next n p) (Parser.summand next' n q) /\
    (forall tm, similar_outcomes R (Parser.summand_loop next n tm p)
                  (Parser.summand_loop next' n tm q)) /\
    similar_outcomes R (Parser.factor next n p) (Parser.factor next' n q) /\
    similar_outcomes R (Parser.arglist next n p) (Parser.arglist next' n q).

(** The generator in state [g] has the stream [s] still to give. *)
Definition gives (g : Generator) (s : Stream) : Prop :=
  exists fuel : nat, drain fuel g = Some s.

(** A list of tokens each of which is what the alternation matches at the
    head of its text followed by the texts of the tokens after it. *)
Fixpoint chain (toks : list Token) : Prop :=
  match toks with
  | [] => True
  | tok :: rest =>
      first_match LEXER (text tok ++ concat (map text rest))
        = Some (type tok, text tok) /\
      chain rest
  end.

(** The tokens that formulas are made of in the statements below. *)
Definition word (w : str) : Token := {| type := value; text := w |}.
Definition space : Token := {| type := whitespace; text := js " " |}.
Definition symbol (k : kind) : Token := {| type := k; text := TOKEN_TYPES k |}.

(** ** The bound on the depth of calls

    [refines r r'] says that [r'] is what [r] becomes with a larger bound:
    the same, unless [r] ran out. *)
Definition refines {S A : Type} (r r' : outcome S A) : Prop :=
  r = OutOfFuel \/ r = r'.

(** What is left for the generator to do: nothing once it has finished, and
    otherwise the characters not yet scanned and the step that finds the
    end. *)
Definition rem (g : Generator) : nat :=
  match gen_pc g with
  | GenDone => 0
  | _ => S (length (gen_code g) - scan_pos g)
  end.

Definition size (p : Parser.t Generator) : nat := rem (Parser.tokenIter p).

(** What holds of a parser between two calls: its iterator is in order, and
    has not finished as long as the current token is not the end of the
    input. *)
Definition parser_ok (p : Parser.t Generator) : Prop :=
  gen_ok (Parser.tokenIter p) /\
  (type (Parser.cur p) <> eof -> gen_pc (Parser.tokenIter p) <> GenDone).

(** A postcondition on what a method returns; a method that throws meets
    it, one that runs out of depth does not. *)
Definition post {S A : Type} (Q : A -> S -> Prop) (r : outcome S A) : Prop :=
  match r with
  | Ret a p => Q a p
  | Throw _ => True
  | OutOfFuel => False
  end.

(** The methods of the grammar, taken together. *)
Definition grammar_refines {I : Type} (next : I -> IterResult I)
    (n m : nat) : Prop :=
  (forall p, refines (Parser.expr next n p) (Parser.expr next m p)) /\
  (forall p, refines (Parser.sum next n p) (Parser.sum next m p)) /\
  (forall tm p,
     refines (Parser.sum_loop next n tm p) (Parser.sum_loop next m tm p)) /\
  (forall p, refines (Parser.summand next n p) (Parser.summand next m p)) /\
  (forall tm p,
     refines (Parser.summand_loop next n tm p)
       (Parser.summand_loop next m tm p)) /\
  (forall p, refines (Parser.factor next n p) (Parser.factor next m p)) /\
  (forall p, refines (Parser.arglist next n p) (Parser.arglist next m p)).

(** [consume]: a token taken leaves less to do unless it is the end of the
    input; a token refused leaves the iterator and the token as they
    are. *)
Definition consumed (ty : kind) (p : Parser.t Generator)
    (tok : option Token) (p' : Parser.t Generator) : Prop :=
  parser_ok p' /\
  match tok with
  | Some _ => size p' <= size p /\ (ty <> eof -> size p' < size p)
  | None => size p' = size p
  end.

(** What the methods of the grammar are to return: [strict] ones have taken
    a token at least. *)
Definition returns {A : Type} (strict : bool) (p : Parser.t Generator)
    (r : outcome (Parser.t Generator) A) : Prop :=
  post (fun _ p' =>
          parser_ok p' /\
          if strict then size p' < size p else size p' <= size p) r.

Definition grammar_total (n : nat) : Prop :=
  forall p, parser_ok p ->
    (4 * size p + 4 <= n -> returns true p (Parser.expr next n p)) /\
    (4 * size p + 3 <= n -> returns true p (Parser.sum next n p)) /\
    (forall tm, 4 * size p + 1 <= n ->
                returns false p (Parser.sum_loop next n tm p)) /\
    (4 * size p + 2 <= n -> returns true p (Parser.summand next n p)) /\
    (forall tm, 4 * size p + 1 <= n ->
                returns false p (Parser.summand_loop next n tm p)) /\
    (4 * size p + 1 <= n -> returns true p (Parser.factor next n p)) /\
    (4 * size p + 5 <= n -> returns true p (Parser.arglist next n p)).

(** ** Runs of a class

    The class of characters of the kinds that are greedy runs. *)
Definition run_class (k : kind) : option (char -> bool) :=
  match k with
  | value => Some is_value_char
  | whitespace => Some is_space
  | _ => None
  end.

(** ** What a method ensures

    A postcondition for the results that a method returns; it says nothing
    of a method that throws or runs out of depth. *)
Definition ensures {S A : Type} (Q : A -> S -> Prop) (r : outcome S A)
    : Prop :=
  match r with
  | Ret a p => Q a p
  | _ => True
  end.

(** ** Trees

    The trees that [parse] builds: a leaf, or an array that starts with the
    symbol of a binary operator and has two subtrees after it, or with a
    function name and has one. *)
Definition operator_symbols : list str :=
  map TOKEN_TYPES [plus; minus; times; divided].

Fixpoint well_formed (tm : term) : Prop :=
  match tm with
  | Str _ => True
  | Arr [] => False
  | Arr (Arr _ :: _) => False
  | Arr (Str head :: args) =>
      (In head operator_symbols /\ length args = 2 \/
       FUNCTION_NAME head = true /\ length args = 1) /\
      (fix all (l : list term) : Prop :=
         match l with
         | [] => True
         | x :: l' => well_formed x /\ all l'
         end) args
  end.

(** What the methods of the grammar ensure: the trees they return are well
    formed, and the state they leave satisfies [J] if the state they are
    called in does. *)
Definition grammar_ensures {I : Type} (next : I -> IterResult I)
    (J : Parser.t I -> Prop) (n : nat) : Prop :=
  forall p, J p ->
    let good := fun (tm : term) (p' : Parser.t I) => well_formed tm /\ J p' in
    ensures good (Parser.expr next n p) /\
    ensures good (Parser.sum next n p) /\
    (forall tm, well_formed tm -> ensures good (Parser.sum_loop next n tm p)) /\
    ensures good (Parser.summand next n p) /\
    (forall tm, well_formed tm ->
                ensures good (Parser.summand_loop next n tm p)) /\
    ensures good (Parser.factor next n p) /\
    ensures (fun args p' =>
               (exists arg, args = [arg] /\ well_formed arg) /\ J p')
      (Parser.arglist next n p).

(** ** A parser on a stream

    What holds of a parser that reads a stream of tokens of the lexer and
    ending with [e]: the end of the input is its current token only when
    the stream has come to its end without an error. *)
Definition no_eof (toks : list Token) : Prop :=
  Forall (fun tok => type tok <> eof) toks.

Definition stream_ok (e : option JsError) (p : Parser.t Stream) : Prop :=
  (type (Parser.cur p) = eof -> Parser.tokenIter p = ([], None)) /\
  no_eof (fst (Parser.tokenIter p)) /\
  snd (Parser.tokenIter p) = e.

(** ** Streams without their white space *)

Definition without_spaces (s : Stream) : Stream :=
  (filter (fun tok => negb (kind_eqb (type tok) whitespace)) (fst s), snd s).

(** [r'] is what [r] is for an iterator that goes with the first one, or
    [r] has run out of depth. *)
Definition within {I J A : Type} (R : I -> J -> Prop)
    (r : outcome (Parser.t I) A) (r' : outcome (Parser.t J) A) : Prop :=
  r = OutOfFuel \/ similar_outcomes R r r'.

Definition grammar_within {I J : Type} (next : I -> IterResult I)
    (next' : J -> IterResult J) (R : I -> J -> Prop) (n : nat) : Prop :=
  forall p q, similar_parsers R p q ->
    within R (Parser.expr next n p) (Parser.expr next' n q) /\
    within R (Parser.sum next n p) (Parser.sum next' n q) /\
    (forall tm, within R (Parser.sum_loop next n tm p)
                  (Parser.sum_loop next' n tm q)) /\
    within R (Parser.summand next n p) (Parser.summand next' n q) /\
    (forall tm, within R (Parser.summand_loop next n tm p)
                  (Parser.summand_loop next' n tm q)) /\
    within R (Parser.factor next n p) (Parser.factor next' n q) /\
    within R (Parser.arglist next n p) (Parser.arglist next' n q).

(** ** The alphabet of formulas without quoted text

    The characters that some alternative other than the quoted text can
    match: those of bare values, white space, the parentheses, the
    operators and the comma. *)
Definition in_alphabet (c : char) : bool :=
  is_value_char c || is_space c
  || existsb (N.eqb c) [40; 41; 43; 42; 47; 44]%N.

(** * Properties *)

(** ** What an alternative matches *)

Lemma span_app (p : char -> bool) (l : str) :
  fst (span p l) ++ snd (span p l) = l.
Proof.
  induction l as [|c l IH]; simpl; [reflexivity|].
  destruct (p c); [|reflexivity].
  destruct (span p l) as [run rest]; simpl in *. now rewrite IH.
Qed.

Lemma span_all (p : char -> bool) (l rest : str) :
  forallb p l = true ->
  match rest with [] => True | c :: _ => p c = false end ->
  span p (l ++ rest) = (l, rest).
Proof.
  intros Hl Hrest. induction l as [|c l IH]; simpl in *.
  - destruct rest as [|c rest]; [reflexivity|]. simpl. now rewrite Hrest.
  - apply andb_true_iff in Hl as [Hc Hl]. rewrite Hc, (IH Hl). reflexivity.
Qed.

(** A match is a non-empty prefix of the text it is tried on. *)
Lemma match_kind_prefix (k : kind) (l t : str) :
  match_kind k l = Some t -> t <> [] /\ exists rest, l = t ++ rest.
Proof.
  assert (Hlit : forall c, lit c l = Some t ->
                           t <> [] /\ exists rest, l = t ++ rest).
  { intros c. unfold lit. destruct l as [|x l']; [discriminate|].
    destruct (N.eqb x c); [|discriminate].
    intros [= <-]. split; [discriminate|]. now exists l'. }
  assert (Hmany : forall p, many1 p l = Some t ->
                            t <> [] /\ exists rest, l = t ++ rest).
  { intros p. unfold many1. pose proof (span_app p l) as Happ.
    destruct (fst (span p l)) as [|c run]; [discriminate|].
    intros [= <-]. split; [discriminate|].
    exists (snd (span p l)). now rewrite Happ. }
  destruct k; simpl; eauto; try discriminate.
  destruct l as [|q l']; [discriminate|].
  destruct (N.eqb q dquote); [|discriminate].
  pose proof (span_app is_not_quote l') as Happ.
  destruct (span is_not_quote l') as [[|b body] [|q' rest]];
    try discriminate.
  intros [= <-]. split; [discriminate|].
  exists rest. simpl in *. rewrite <- Happ, <- app_assoc. reflexivity.
Qed.

Lemma first_match_prefix (alts : list kind) (l : str) (k : kind) (t : str) :
  first_match alts l = Some (k, t) ->
  t <> [] /\ exists rest, l = t ++ rest.
Proof.
  induction alts as [|a alts IH]; simpl; [discriminate|].
  destruct (match_kind a l) as [t'|] eqn:Ha; [|exact IH].
  intros [= <- <-]. eapply match_kind_prefix; eauto.
Qed.

Lemma first_match_In (alts : list kind) (l : str) (k : kind) (t : str) :
  first_match alts l = Some (k, t) -> In k alts /\ match_kind k l = Some t.
Proof.
  induction alts as [|a alts IH]; simpl; [discriminate|].
  destruct (match_kind a l) as [t'|] eqn:Ha.
  - intros [= <- <-]. auto.
  - intros H. destruct (IH H). auto.
Qed.

Lemma first_match_nil (alts : list kind) : first_match alts [] = None.
Proof.
  induction alts as [|a alts IH]; simpl; [reflexivity|].
  now destruct a.
Qed.

(** ** [exec] finds the leftmost match *)

Lemma search_spec (l : str) (i j : nat) (m : kind * str) :
  search l i = Some (j, m) ->
  exists d, j = i + d /\ first_match LEXER (skipn d l) = Some m /\
            forall d', d' < d -> first_match LEXER (skipn d' l) = None.
Proof.
  revert i. induction l as [|c l IH]; intros i.
  - cbn [search]. rewrite first_match_nil. discriminate.
  - cbn [search]. destruct (first_match LEXER (c :: l)) as [m'|] eqn:Hm.
    + intros [= <- <-]. exists 0. rewrite Nat.add_0_r. repeat split; auto.
      intros d' Hd'. lia.
    + intros H. apply IH in H as (d & -> & Hd & Hlt).
      exists (S d). repeat split; [lia|exact Hd|].
      intros [|d'] Hd'; [exact Hm|]. apply Hlt. lia.
Qed.

Lemma search_here (l : str) (i : nat) (m : kind * str) :
  first_match LEXER l = Some m -> search l i = Some (i, m).
Proof. intros H. destruct l; cbn [search]; now rewrite H. Qed.

Lemma search_later (l : str) (i j : nat) (m : kind * str) :
  first_match LEXER l = None -> search l i = Some (j, m) -> j <> i.
Proof.
  intros Hn Hs. apply search_spec in Hs as (d & -> & Hd & _).
  destruct d; [|lia]. cbn [skipn] in Hd. congruence.
Qed.

(** The [for]-[in] loop finds the group of the alternative that matched. *)
Lemma first_group_groups_of (k : kind) (t : str) :
  In k LEXER -> first_group (groups_of k t) = Some (k, t).
Proof.
  unfold LEXER. simpl.
  intros [<-|[<-|[<-|[<-|[<-|[<-|[<-|[<-|[<-|[<-|[]]]]]]]]]]]; reflexivity.
Qed.

(** ** One call of [next] *)

Lemma skipn_nth_error_none (code : str) (p : nat) :
  nth_error code p = None -> skipn p code = [].
Proof. intros H. apply skipn_all2. now apply nth_error_None. Qed.

(** One turn of the loop when [LEXER.lastIndex] and [expectedNextToken]
    agree: the first alternative that matches at that offset decides. *)
Lemma tokenize_loop_cases (code : str) (p : nat)
    (vars : option (kind * str)) :
  p <= length code ->
  match first_match LEXER (skipn p code) with
  | Some (k, t) =>
      tokenize_loop code p p vars =
      Yielded {| type := k; text := t |}
        {| gen_code := code; gen_pc := GenYield (p + length t) p k t |}
  | None =>
      match nth_error code p with
      | None =>
          tokenize_loop code p p vars =
          Finished {| gen_code := code; gen_pc := GenDone |}
      | Some c =>
          tokenize_loop code p p vars =
            Raised (Error (js "Unexpected token " ++ [c])) \/
          tokenize_loop code p p vars =
            Raised (Error (js "Unexpected token end " ++ [c]))
      end
  end.
Proof.
  intros Hp. unfold tokenize_loop, exec.
  assert (Hlt : (length code <? p) = false) by (apply Nat.ltb_ge; lia).
  rewrite Hlt.
  destruct (first_match LEXER (skipn p code)) as [[k t]|] eqn:Hm.
  - rewrite (search_here _ p _ Hm). cbn [index groups].
    rewrite Nat.eqb_refl. cbn [negb].
    apply first_match_In in Hm as [Hin _].
    now rewrite (first_group_groups_of k t Hin).
  - unfold charAt.
    destruct (nth_error code p) as [c|] eqn:Hc.
    + destruct (search (skipn p code) p) as [[j [k t]]|] eqn:Hs.
      * left. cbn [index]. apply (search_later _ _ _ _ Hm) in Hs.
        apply Nat.eqb_neq in Hs. now rewrite Hs.
      * right.
        assert (Hne : p <> length code).
        { intros ->. rewrite (proj2 (nth_error_None code (length code))) in Hc;
            [discriminate|lia]. }
        apply Nat.eqb_neq in Hne. now rewrite Hne.
    + rewrite (skipn_nth_error_none _ _ Hc). cbn [search].
      rewrite first_match_nil.
      apply nth_error_None in Hc.
      assert (He : p = length code) by lia.
      apply Nat.eqb_eq in He. now rewrite He.
Qed.

Lemma next_cases (g : Generator) :
  gen_ok g -> gen_pc g <> GenDone ->
  let p := scan_pos g in
  let code := gen_code g in
  match first_match LEXER (skipn p code) with
  | Some (k, t) =>
      next g =
      Yielded {| type := k; text := t |}
        {| gen_code := code; gen_pc := GenYield (p + length t) p k t |}
  | None =>
      match nth_error code p with
      | None => next g = Finished {| gen_code := code; gen_pc := GenDone |}
      | Some c =>
          next g = Raised (Error (js "Unexpected token " ++ [c])) \/
          next g = Raised (Error (js "Unexpected token end " ++ [c]))
      end
  end.
Proof.
  destruct g as [code pc]. unfold gen_ok, scan_pos, next. cbn [gen_pc gen_code].
  destruct pc as [|li e ty tx|]; intros Hok Hpc; [| |congruence].
  - apply tokenize_loop_cases. lia.
  - destruct Hok as [-> Hle]. apply tokenize_loop_cases. exact Hle.
Qed.

Lemma first_match_within (code : str) (p : nat) (k : kind) (t : str) :
  first_match LEXER (skipn p code) = Some (k, t) ->
  0 < length t /\ p + length t <= length code.
Proof.
  intros Hm. destruct (first_match_prefix _ _ _ _ Hm) as [Hne [rest Hrest]].
  apply (f_equal (@length _)) in Hrest.
  rewrite length_skipn, length_app in Hrest.
  destruct t; [congruence|]. cbn [length] in *. lia.
Qed.

(** A generator that has yielded stays within its text. *)
Lemma next_yield_ok (g g' : Generator) (tok : Token) :
  gen_ok g -> next g = Yielded tok g' ->
  gen_ok g' /\ gen_code g' = gen_code g /\ gen_pc g' <> GenDone /\
  0 < length (text tok) /\
  scan_pos g' = scan_pos g + length (text tok) /\
  scan_pos g' <= length (gen_code g) /\
  first_match LEXER (skipn (scan_pos g) (gen_code g))
    = Some (type tok, text tok).
Proof.
  intros Hok Hn.
  assert (Hnd : gen_pc g <> GenDone).
  { intros Hpc. unfold next in Hn. rewrite Hpc in Hn. discriminate. }
  pose proof (next_cases g Hok Hnd) as H. cbv zeta in H.
  destruct (first_match LEXER (skipn (scan_pos g) (gen_code g)))
    as [[k t]|] eqn:Hm.
  - rewrite Hn in H. injection H as -> ->.
    destruct (first_match_within _ _ _ _ Hm) as [Hpos Hlen].
    unfold gen_ok, scan_pos at 1 3. cbn [gen_pc gen_code type text].
    repeat split; auto; discriminate.
  - destruct (nth_error (gen_code g) (scan_pos g));
      [destruct H as [H|H]|]; rewrite Hn in H; discriminate.
Qed.

(** ** The token stream covers the text *)

Lemma skipn_nth_error_some (code : str) (p : nat) (c : char) :
  nth_error code p = Some c -> skipn p code = c :: skipn (S p) code.
Proof.
  revert p. induction code as [|x code IH]; intros [|p]; try discriminate.
  - now intros [= ->].
  - intros H. apply (IH _ H).
Qed.

Lemma skipn_after_prefix (code t rest : str) (p : nat) :
  skipn p code = t ++ rest -> skipn (p + length t) code = rest.
Proof.
  intros H. rewrite Nat.add_comm, <- skipn_skipn, H.
  rewrite skipn_app, skipn_all, Nat.sub_diag. reflexivity.
Qed.

(** From any state the generator can be in, the tokens still to come spell
    the text that is left, unless the scan stops on a character that no
    alternative matches. *)
Lemma drain_spec (fuel : nat) (g : Generator) :
  gen_ok g ->
  length (gen_code g) - scan_pos g < fuel ->
  exists toks r,
    drain fuel g = Some (toks, r) /\
    match r with
    | None => concat (map text toks) = skipn (scan_pos g) (gen_code g)
    | Some e =>
        exists c rest,
          skipn (scan_pos g) (gen_code g)
            = concat (map text toks) ++ c :: rest /\
          (e = Error (js "Unexpected token " ++ [c]) \/
           e = Error (js "Unexpected token end " ++ [c]))
    end.
Proof.
  revert g. induction fuel as [|fuel IH]; intros g Hok Hfuel; [lia|].
  cbn [drain].
  destruct (gen_pc g) eqn:Hpc.
  3: { unfold next. rewrite Hpc. exists [], None. split; [reflexivity|].
       unfold scan_pos. rewrite Hpc. now rewrite skipn_all. }
  all: assert (Hnd : gen_pc g <> GenDone) by congruence;
    clear Hpc; pose proof (next_cases g Hok Hnd) as H; cbv zeta in H;
    destruct (first_match LEXER (skipn (scan_pos g) (gen_code g)))
      as [[k t]|] eqn:Hm.
  1, 3: rewrite H;
    pose proof (next_yield_ok _ _ _ Hok H)
      as (Hok' & Hcode & _ & Hpos & Hsp & Hle & _);
    cbn [text] in Hpos, Hsp;
    destruct (IH _ Hok') as (toks & r & Hd & Hr); [rewrite Hcode; lia|];
    rewrite Hd; exists ({| type := k; text := t |} :: toks), r;
    (split; [reflexivity|]);
    destruct (first_match_prefix _ _ _ _ Hm) as [_ [rest Hrest]];
    rewrite Hsp, Hcode, (skipn_after_prefix _ _ _ _ Hrest) in Hr;
    rewrite Hrest; cbn [map concat text];
    destruct r as [e|];
    [ destruct Hr as (c & rest' & -> & He); exists c, rest';
      rewrite <- app_assoc; auto
    | now rewrite Hr ].
  all: destruct (nth_error (gen_code g) (scan_pos g)) as [c|] eqn:Hc;
    [ destruct H as [H|H]; rewrite H;
      eexists [], (Some _); (split; [reflexivity|]);
      exists c, (skipn (S (scan_pos g)) (gen_code g));
      (split; [now apply skipn_nth_error_some|auto])
    | rewrite H; exists [], None; split; [reflexivity|];
      now rewrite (skipn_nth_error_none _ _ Hc) ].
Qed.

(** C2. Tokenizer coverage.  Collecting the stream of [tokenize(code)]
    always ends.  When the stream completes without an error, the texts of
    the tokens, concatenated in order, are the input, and their lengths sum
    to the length of the input; otherwise the stream ends with a lex error
    on the first character that the tokens before it do not cover. *)
Theorem tokenize_coverage (code : str) :
  exists toks r,
    tokens code = Some (toks, r) /\
    match r with
    | None =>
        concat (map text toks) = code /\
        list_sum (map (fun tok => length (text tok)) toks) = length code
    | Some e =>
        exists c rest,
          code = concat (map text toks) ++ c :: rest /\
          (e = Error (js "Unexpected token " ++ [c]) \/
           e = Error (js "Unexpected token end " ++ [c]))
    end.
Proof.
  unfold tokens.
  destruct (drain_spec (S (length code)) (tokenize code))
    as (toks & r & Hd & Hr).
  - exact I.
  - cbn. lia.
  - exists toks, r. split; [exact Hd|].
    cbn [tokenize scan_pos gen_pc gen_code skipn] in Hr.
    destruct r as [e|]; [exact Hr|]. split; [exact Hr|].
    transitivity (length (concat (map text toks))); [|now rewrite Hr].
    rewrite length_concat, map_map. reflexivity.
Qed.

(** ** The order of the alternatives *)

Lemma first_match_app (a b : list kind) (l : str) :
  first_match (a ++ b) l =
  match first_match a l with
  | Some r => Some r
  | None => first_match b l
  end.
Proof.
  induction a as [|k a IH]; cbn [app first_match]; [reflexivity|].
  now destruct (match_kind k l).
Qed.

Lemma first_match_None (alts : list kind) (l : str) :
  (forall k, In k alts -> match_kind k l = None) ->
  first_match alts l = None.
Proof.
  induction alts as [|a alts IH]; intros H; cbn [first_match]; [reflexivity|].
  rewrite (H a (or_introl eq_refl)). apply IH. intros k Hk. apply H. now right.
Qed.

Lemma first_match_None_inv (alts : list kind) (l : str) (k : kind) :
  first_match alts l = None -> In k alts -> match_kind k l = None.
Proof.
  induction alts as [|a alts IH]; cbn [first_match]; [intros _ []|].
  destruct (match_kind a l) eqn:Ha; [discriminate|].
  intros H [<-|Hk]; auto.
Qed.

(** When one kind only of a list matches, the position of that kind in the
    list does not count. *)
Lemma first_match_only (alts : list kind) (l : str) (k : kind) (t : str) :
  In k alts -> match_kind k l = Some t ->
  (forall k', In k' alts -> match_kind k' l <> None -> k' = k) ->
  first_match alts l = Some (k, t).
Proof.
  induction alts as [|a alts IH]; intros Hin Hk Honly; [destruct Hin|].
  cbn [first_match]. destruct (match_kind a l) as [t'|] eqn:Ha.
  - assert (a = k) as -> by (apply Honly; [now left|congruence]).
    congruence.
  - destruct Hin as [->|Hin]; [congruence|].
    apply IH; auto. intros k' Hk'. apply Honly. now right.
Qed.

(** Two kinds of one character never match at the same place. *)
Lemma single_kinds_exclusive (k1 k2 : kind) (l : str) :
  In k1 single_kinds -> In k2 single_kinds ->
  match_kind k1 l <> None -> match_kind k2 l <> None -> k1 = k2.
Proof.
  unfold single_kinds. cbn [In].
  destruct l as [|c l]; [now destruct k1|].
  intros H1 H2.
  repeat match goal with H : _ \/ _ |- _ => destruct H as [<-|H] end;
    try contradiction; try reflexivity;
    cbn [match_kind lit]; unfold hyphen;
    repeat match goal with
      | |- context [N.eqb c ?n] => destruct (N.eqb_spec c n)
      end; congruence.
Qed.

Lemma first_match_singles (singles : list kind) (l : str) :
  Permutation singles single_kinds ->
  first_match singles l = first_match single_kinds l.
Proof.
  intros Hperm.
  destruct (first_match single_kinds l) as [[k t]|] eqn:Hm.
  - apply first_match_In in Hm as [Hin Hk].
    apply first_match_only; auto.
    + apply (Permutation_in _ (Permutation_sym Hperm) Hin).
    + intros k' Hk' Hsome. apply (single_kinds_exclusive k' k l); auto.
      * apply (Permutation_in _ Hperm Hk').
      * congruence.
  - apply first_match_None. intros k Hk.
    apply (first_match_None_inv _ _ k Hm), (Permutation_in _ Hperm Hk).
Qed.

(** In the source, the times, division and comma alternatives come after
    the bare value and the quoted text.  None of them starts like a bare
    value or a quote, so moving them before makes no difference. *)
Lemma first_match_single_kinds_first (l : str) :
  first_match (spec_priority single_kinds) l = first_match LEXER l.
Proof.
  destruct l as [|c l]; [reflexivity|].
  unfold spec_priority, single_kinds, LEXER.
  cbn [app first_match match_kind lit]. unfold hyphen, dquote.
  repeat match goal with
    | |- context [N.eqb c ?n] => destruct (N.eqb_spec c n); [subst c|]
    end; try congruence; try reflexivity.
Qed.

Lemma first_match_priority (singles : list kind) (l : str) :
  Permutation singles single_kinds ->
  first_match (spec_priority singles) l = first_match LEXER l.
Proof.
  intros Hperm. rewrite <- first_match_single_kinds_first.
  unfold spec_priority. rewrite !first_match_app.
  now rewrite (first_match_singles _ l Hperm).
Qed.

(** Every token of a stream is what the alternation matches at the offset
    where the tokens before it end. *)
Lemma drain_tokens (fuel : nat) (g : Generator) toks r :
  gen_ok g -> drain fuel g = Some (toks, r) ->
  forall i tok, nth_error toks i = Some tok ->
    first_match LEXER (skipn (scan_pos g + offset_of toks i) (gen_code g))
      = Some (type tok, text tok).
Proof.
  revert g toks. induction fuel as [|fuel IH]; intros g toks Hok;
    [discriminate|].
  cbn [drain]. destruct (next g) as [tok0 g'| |e] eqn:Hn.
  2, 3: intros [= <- <-] [|i] tok; discriminate.
  destruct (next_yield_ok _ _ _ Hok Hn)
    as (Hok' & Hcode & _ & _ & Hsp & _ & Hm).
  destruct (drain fuel g') as [[toks' r']|] eqn:Hd; [|discriminate].
  intros [= <- <-] [|i] tok.
  - intros [= <-]. unfold offset_of. cbn [firstn map concat length].
    now rewrite Nat.add_0_r.
  - cbn [nth_error]. intros Hi.
    pose proof (IH _ _ Hok' Hd i tok Hi) as H.
    rewrite Hsp, Hcode in H. rewrite <- H. f_equal. f_equal.
    unfold offset_of. cbn [firstn map concat]. rewrite length_app. lia.
Qed.

(** C4. Matching policy.  Whatever order the kinds of one character are
    put in before the bare value, the quoted text and white space, each
    token that [tokenize] yields is the first kind of that order that
    matches at the offset of the token, with the text that kind matches
    there. *)
Theorem tokenize_priority (singles : list kind) (code : str)
    (toks : list Token) (r : option JsError) (i : nat) (tok : Token) :
  Permutation singles single_kinds ->
  tokens code = Some (toks, r) ->
  nth_error toks i = Some tok ->
  first_match (spec_priority singles) (skipn (offset_of toks i) code)
    = Some (type tok, text tok).
Proof.
  intros Hperm Htoks Hi. rewrite (first_match_priority _ _ Hperm).
  apply (drain_tokens _ (tokenize code) toks r I Htoks i tok Hi).
Qed.

Lemma tokenize_priority_witness :
  first_match
    (spec_priority [comma; divided; times; minus; plus; rparen; lparen])
    (skipn 1 (js "-5-1*")) = Some (value, js "5-1").
Proof.
  apply (tokenize_priority
           [comma; divided; times; minus; plus; rparen; lparen]
           (js "-5-1*")
           [ {| type := minus; text := js "-" |};
             {| type := value; text := js "5-1" |};
             {| type := times; text := js "*" |} ]
           None 1 {| type := value; text := js "5-1" |}).
  - change single_kinds with
      (rev [comma; divided; times; minus; plus; rparen; lparen]).
    apply Permutation_rev.
  - vm_compute. reflexivity.
  - reflexivity.
Defined.

(** ** A larger bound changes no result *)

Module Fuel.
Import Parser.

Section Iterator.

Context {I : Type} (next : I -> IterResult I).

Lemma refines_refl {S A : Type} (r : outcome S A) : refines r r.
Proof. now right. Qed.

Lemma refines_bind {A B : Type} (m m' : M I A) (k k' : A -> M I B)
    (p : t I) :
  refines (m p) (m' p) ->
  (forall a p', refines (k a p') (k' a p')) ->
  refines (bind m k p) (bind m' k' p).
Proof.
  unfold bind. intros [H|H] Hk; rewrite H; [now left|].
  destruct (m' p); auto using refines_refl.
Qed.

Lemma advance_refines (n m : nat) (g : I) :
  n <= m -> refines (advance next n g) (advance next m g).
Proof.
  revert m g. induction n as [|n IH]; intros m g Hle; [now left|].
  destruct m as [|m]; [lia|]. cbn [advance].
  destruct (next g) as [tok g'|g'|e]; try apply refines_refl.
  destruct (kind_eqb (type tok) whitespace); [|apply refines_refl].
  apply IH. lia.
Qed.

Lemma consume_refines (n m : nat) (ty : kind) (p : t I) :
  n <= m -> refines (consume next n ty p) (consume next m ty p).
Proof.
  intros Hle. unfold consume.
  destruct (kind_eqb (type (cur p)) ty); [|apply refines_refl].
  destruct (advance_refines n m (tokenIter p) Hle) as [H|H]; rewrite H;
    [now left|apply refines_refl].
Qed.

Lemma expect_refines (n m : nat) (ty : kind) (p : t I) :
  n <= m -> refines (expect next n ty p) (expect next m ty p).
Proof.
  intros Hle. unfold expect. apply refines_bind.
  - now apply consume_refines.
  - intros; apply refines_refl.
Qed.

Ltac refines_step IH Hle :=
  repeat first
    [ apply refines_refl
    | apply consume_refines; exact Hle
    | apply expect_refines; exact Hle
    | apply IH
    | apply refines_bind
    | intros ? ?
    | match goal with
      | |- refines (match ?x with _ => _ end _) _ => destruct x
      | |- refines ((if ?b then _ else _) _) _ => destruct b
      end ].

Lemma grammar_monotone (n m : nat) : n <= m -> grammar_refines next n m.
Proof.
  revert m. induction n as [|n IH]; intros m Hle.
  - repeat split; intros; now left.
  - destruct m as [|m]; [lia|].
    assert (Hle' : n <= m) by lia.
    destruct (IH m Hle') as (He & Hs & Hsl & Hd & Hdl & Hf & Ha).
    repeat split; intros;
      cbn [expr sum sum_loop summand summand_loop factor arglist].
    + apply Hs.
    + refines_step Hd Hle'. apply Hsl.
    + refines_step Hd Hle'; apply Hsl.
    + refines_step Hf Hle'. apply Hdl.
    + refines_step Hf Hle'; apply Hdl.
    + refines_step Ha Hle'; apply He.
    + refines_step He Hle'.
Qed.

Lemma toplevel_refines (n m : nat) (p : t I) :
  n <= m -> refines (toplevel next n p) (toplevel next m p).
Proof.
  intros Hle. unfold toplevel. apply refines_bind.
  - apply (grammar_monotone n m Hle).
  - intros. apply refines_bind; [now apply expect_refines|].
    intros; apply refines_refl.
Qed.

End Iterator.

End Fuel.

(** A result that [run] reaches within some bound is its result within any
    larger bound. *)
Lemma run_monotone {I : Type} (next : I -> IterResult I) (n m : nat)
    (it : I) :
  n <= m -> run next n it <> Exhausted -> run next m it = run next n it.
Proof.
  intros Hle. unfold run, Parser.new, Parser.parse.
  destruct (Fuel.advance_refines next n m it Hle) as [H|H]; rewrite H;
    [congruence|].
  destruct (Parser.advance next m it) as [[] p| |]; try reflexivity.
  destruct (Fuel.toplevel_refines next n m p Hle) as [H'|H']; rewrite H';
    [congruence|reflexivity].
Qed.

Lemma parse_with_monotone (n m : nat) (code : str) :
  n <= m -> parse_with n code <> Exhausted ->
  parse_with m code = parse_with n code.
Proof. apply run_monotone. Qed.

(** ** The parser sees its iterator through [next] only *)

Module Simulation.
Import Parser.

Section Iterators.

Context {I J : Type} (next : I -> IterResult I) (next' : J -> IterResult J).
Context (R : I -> J -> Prop).

Hypothesis next_similar : forall i j, R i j -> similar R (next i) (next' j).

Lemma advance_similar (n : nat) (i : I) (j : J) :
  R i j -> similar_outcomes R (advance next n i) (advance next' n j).
Proof.
  revert i j. induction n as [|n IH]; intros i j Hij; [exact Logic.I|].
  cbn [advance]. pose proof (next_similar i j Hij) as H.
  destruct (next i) as [tok i'|i'|e], (next' j) as [tok' j'|j'|e'];
    cbn [similar] in H; try contradiction.
  - destruct H as [<- H]. destruct (kind_eqb (type tok) whitespace).
    + now apply IH.
    + cbn. repeat split; auto.
  - cbn. repeat split; auto.
  - cbn. exact H.
Qed.

Lemma bind_similar {A B : Type} (m : M I A) (m' : M J A)
    (k : A -> M I B) (k' : A -> M J B) (p : t I) (q : t J) :
  similar_outcomes R (m p) (m' q) ->
  (forall a p1 q1, similar_parsers R p1 q1 ->
                   similar_outcomes R (k a p1) (k' a q1)) ->
  similar_outcomes R (bind m k p) (bind m' k' q).
Proof.
  unfold bind. intros H Hk.
  destruct (m p) as [a p1| |], (m' q) as [a' q1| |]; cbn in H;
    try contradiction; try exact H.
  destruct H as [<- H]. now apply Hk.
Qed.

Lemma consume_similar (n : nat) (ty : kind) (p : t I) (q : t J) :
  similar_parsers R p q ->
  similar_outcomes R (consume next n ty p) (consume next' n ty q).
Proof.
  intros (Hit & Hatt & Hcur). unfold consume. rewrite <- Hcur, <- Hatt.
  destruct (kind_eqb (type (cur p)) ty).
  - pose proof (advance_similar n _ _ Hit) as H.
    destruct (advance next n (tokenIter p)) as [[] p1| |],
      (advance next' n (tokenIter q)) as [[] q1| |];
      cbn in H; try contradiction; try exact H.
    cbn. split; [reflexivity|apply H].
  - cbn. repeat split; auto.
Qed.

Lemma throwUnexpectedToken_similar {A : Type} (p : t I) (q : t J) :
  similar_parsers R p q ->
  similar_outcomes R (@throwUnexpectedToken I A p)
    (@throwUnexpectedToken J A q).
Proof.
  intros (_ & Hatt & Hcur). unfold throwUnexpectedToken, unexpectedToken.
  cbn. now rewrite Hatt, Hcur.
Qed.

Lemma expect_similar (n : nat) (ty : kind) (p : t I) (q : t J) :
  similar_parsers R p q ->
  similar_outcomes R (expect next n ty p) (expect next' n ty q).
Proof.
  intros Hpq. unfold expect. apply bind_similar.
  - now apply consume_similar.
  - intros [tok|] p1 q1 H1; [exact (conj eq_refl H1)|].
    now apply throwUnexpectedToken_similar.
Qed.

Ltac similar_step IH :=
  repeat first
    [ assumption
    | apply consume_similar
    | apply expect_similar
    | apply throwUnexpectedToken_similar
    | apply IH
    | apply bind_similar
    | intros ? ? ? ?
    | match goal with
      | |- similar_outcomes _ (ret _ _) (ret _ _) => split; [reflexivity|]
      | |- similar_outcomes _ (throw _ _) (throw _ _) => reflexivity
      | |- similar_outcomes _ (match ?x with _ => _ end _) _ => destruct x
      | |- similar_outcomes _ ((if ?b then _ else _) _) _ => destruct b
      end ].

Lemma grammar_similar_all (n : nat) : grammar_similar next next' R n.
Proof.
  induction n as [|n IH]; intros p q Hpq.
  - repeat split; intros; exact Logic.I.
  - assert (He : forall p q, similar_parsers R p q ->
        similar_outcomes R (expr next n p) (expr next' n q))
      by (intros p0 q0 H0; apply (IH p0 q0 H0)).
    assert (Hs : forall p q, similar_parsers R p q ->
        similar_outcomes R (sum next n p) (sum next' n q))
      by (intros p0 q0 H0; apply (IH p0 q0 H0)).
    assert (Hsl : forall tm p q, similar_parsers R p q ->
        similar_outcomes R (sum_loop next n tm p) (sum_loop next' n tm q))
      by (intros tm p0 q0 H0; apply (IH p0 q0 H0)).
    assert (Hd : forall p q, similar_parsers R p q ->
        similar_outcomes R (summand next n p) (summand next' n q))
      by (intros p0 q0 H0; apply (IH p0 q0 H0)).
    assert (Hdl : forall tm p q, similar_parsers R p q ->
        similar_outcomes R (summand_loop next n tm p)
          (summand_loop next' n tm q))
      by (intros tm p0 q0 H0; apply (IH p0 q0 H0)).
    assert (Hf : forall p q, similar_parsers R p q ->
        similar_outcomes R (factor next n p) (factor next' n q))
      by (intros p0 q0 H0; apply (IH p0 q0 H0)).
    assert (Ha : forall p q, similar_parsers R p q ->
        similar_outcomes R (arglist next n p) (arglist next' n q))
      by (intros p0 q0 H0; apply (IH p0 q0 H0)).
    clear IH.
    repeat split; intros;
      cbn [expr sum sum_loop summand summand_loop factor arglist].
    + now apply Hs.
    + similar_step Hd.
    + similar_step Hd; now apply Hsl.
    + similar_step Hf.
    + similar_step Hf; now apply Hdl.
    + similar_step Ha; now apply He.
    + similar_step He.
Qed.

(** Two iterators that go together make [parse] end in the same way. *)
Lemma run_similar (n : nat) (i : I) (j : J) :
  R i j -> run next n i = run next' n j.
Proof.
  intros Hij. unfold run, new, parse, toplevel.
  pose proof (advance_similar n i j Hij) as H.
  destruct (advance next n i) as [[] p| |], (advance next' n j) as [[] q| |];
    cbn in H; try contradiction; try congruence.
  destruct H as [_ Hpq].
  assert (Htop : similar_outcomes R
            (bind (expr next n)
               (fun tm => bind (expect next n eof) (fun _ => ret tm)) p)
            (bind (expr next' n)
               (fun tm => bind (expect next' n eof) (fun _ => ret tm)) q)).
  { apply bind_similar; [now apply grammar_similar_all|].
    intros tm p1 q1 H1. apply bind_similar; [now apply expect_similar|].
    intros _ p2 q2 H2. exact (conj eq_refl H2). }
  destruct (bind (expr next n) _ p) as [tm p1| |],
    (bind (expr next' n) _ q) as [tm' q1| |];
    cbn in Htop; try contradiction; try congruence.
  now destruct Htop as [<- _].
Qed.

End Iterators.

End Simulation.

(** ** The generator against a stream scanned beforehand *)

Lemma next_finished_done (g g' : Generator) :
  next g = Finished g' -> gen_pc g' = GenDone.
Proof.
  unfold next, tokenize_loop. destruct (gen_pc g) eqn:Hpc.
  3: { now intros [= <-]. }
  all: destruct (exec (gen_code g) _) as [[m|] li];
    repeat match goal with
      | |- (if ?b then _ else _) = _ -> _ => destruct b
      | |- match ?x with _ => _ end = _ -> _ => destruct x
      end; try discriminate; now intros [= <-].
Qed.

Lemma gives_similar (g : Generator) (s : Stream) :
  gives g s -> similar gives (next g) (next_stream s).
Proof.
  intros [[|fuel] Hd]; [discriminate|]. cbn [drain] in Hd.
  destruct (next g) as [tok g'|g'|e] eqn:Hn.
  - destruct (drain fuel g') as [[toks e]|] eqn:Hd'; [|discriminate].
    injection Hd as <-. cbn. split; [reflexivity|]. now exists fuel.
  - injection Hd as <-. cbn. exists 1. cbn [drain].
    apply next_finished_done in Hn. unfold next. now rewrite Hn.
  - injection Hd as <-. reflexivity.
Qed.

(** [parse] on a text is [parse] on the stream of its tokens: that the
    generator scans the text as the parser goes makes no difference. *)
Theorem parse_scanned (n : nat) (code : str) (s : Stream) :
  tokens code = Some s -> parse_with n code = parse_stream n s.
Proof.
  intros Hs. unfold parse_with, parse_stream.
  apply (Simulation.run_similar next next_stream gives gives_similar).
  now exists (S (length code)).
Qed.

(** ** Scanning a text made of known tokens *)

Lemma chain_drain (toks : list Token) (g : Generator) (fuel : nat) :
  gen_ok g -> gen_pc g <> GenDone ->
  skipn (scan_pos g) (gen_code g) = concat (map text toks) ->
  chain toks -> length toks < fuel ->
  drain fuel g = Some (toks, None).
Proof.
  revert g fuel. induction toks as [|tok toks IH];
    intros g fuel Hok Hnd Hrest Hchain Hfuel;
    (destruct fuel as [|fuel]; [cbn in Hfuel; lia|]); cbn [drain];
    pose proof (next_cases g Hok Hnd) as H; cbv zeta in H; rewrite Hrest in H.
  - cbn [map concat] in H. rewrite first_match_nil in H.
    destruct (nth_error (gen_code g) (scan_pos g)) as [c|] eqn:Hc.
    + rewrite (skipn_nth_error_some _ _ _ Hc) in Hrest. discriminate.
    + now rewrite H.
  - destruct Hchain as [Hm Hchain]. cbn [map concat] in H, Hrest.
    rewrite Hm in H. destruct tok as [k t]. cbn [type text] in *.
    rewrite H.
    rewrite (IH _ fuel); [reflexivity| | | |exact Hchain|cbn in Hfuel; lia].
    + destruct (next_yield_ok _ _ _ Hok H) as (Hok' & _). exact Hok'.
    + discriminate.
    + unfold scan_pos at 1. cbn [gen_pc gen_code].
      apply (skipn_after_prefix _ _ _ _ Hrest).
Qed.

Lemma chain_length (toks : list Token) :
  chain toks -> length toks <= length (concat (map text toks)).
Proof.
  induction toks as [|tok toks IH]; [intros; apply Nat.le_refl|].
  intros [Hm Hchain]. cbn [map concat length]. rewrite length_app.
  destruct (first_match_prefix _ _ _ _ Hm) as [Hne _].
  specialize (IH Hchain). destruct (text tok); [congruence|].
  cbn [length]. lia.
Qed.

Lemma chain_tokens (toks : list Token) :
  chain toks -> tokens (concat (map text toks)) = Some (toks, None).
Proof.
  intros Hchain. unfold tokens. apply chain_drain; auto.
  - exact Logic.I.
  - discriminate.
  - pose proof (chain_length toks Hchain). lia.
Qed.

(** A formula written as the texts of a chain of tokens parses as the
    stream of these tokens does, within any bound that this stream does
    not exhaust. *)
Lemma parse_chain (toks : list Token) (n : nat) :
  chain toks -> n <= 4 * length toks + 4 ->
  parse_stream n (toks, None) <> Exhausted ->
  parse (concat (map text toks)) = parse_stream n (toks, None).
Proof.
  intros Hchain Hn Hex. unfold parse.
  rewrite (parse_scanned _ _ _ (chain_tokens toks Hchain)).
  apply run_monotone; [|exact Hex].
  pose proof (chain_length toks Hchain). unfold fuel_for. lia.
Qed.

Lemma in_range_spec (lo hi c : N) :
  in_range lo hi c = true <-> (lo <= c <= hi)%N.
Proof. unfold in_range. rewrite andb_true_iff, !N.leb_le. reflexivity. Qed.

Lemma in_range_outside (lo hi c : N) :
  (c < lo \/ hi < c)%N -> in_range lo hi c = false.
Proof.
  intros H. apply not_true_is_false. rewrite in_range_spec. lia.
Qed.

Lemma eqb_outside (c k : N) : (c < k \/ k < c)%N -> N.eqb c k = false.
Proof. intros H. apply N.eqb_neq. lia. Qed.

(** Letters and digits lie between the digit 0 and the letter z. *)
Lemma alnum_range (c : char) : is_alnum c = true -> (48 <= c <= 122)%N.
Proof.
  unfold is_alnum, is_alpha, is_digit.
  rewrite !orb_true_iff, !in_range_spec. lia.
Qed.

Lemma alnum_cases (c : char) :
  is_alnum c = true ->
  is_value_char c = true /\ is_space c = false /\ N.eqb c dquote = false /\
  N.eqb c 40 = false /\ N.eqb c 41 = false /\ N.eqb c 43 = false /\
  N.eqb c hyphen = false.
Proof.
  intros Hc. pose proof (alnum_range c Hc) as Hr.
  split; [|split].
  - unfold is_value_char. fold (is_alnum c). now rewrite Hc.
  - unfold is_space. now rewrite !in_range_outside, !eqb_outside by lia.
  - unfold dquote, hyphen. now rewrite !eqb_outside by lia.
Qed.

(** A word is one bare-value token when the text ends after it or goes on
    with a character that is not of a bare value. *)
Lemma first_match_word (w rest : str) :
  is_word w = true ->
  match rest with [] => True | x :: _ => is_value_char x = false end ->
  first_match LEXER (w ++ rest) = Some (value, w).
Proof.
  destruct w as [|c v]; [discriminate|]. cbn [is_word].
  intros Hw Hrest. apply andb_true_iff in Hw as [Hc Hv].
  destruct (alnum_cases c Hc) as (Hvc & _ & _ & H40 & H41 & H43 & H45).
  unfold LEXER. cbn [app first_match match_kind lit].
  rewrite H40, H41, H43, H45. unfold many1.
  change (c :: v ++ rest) with ((c :: v) ++ rest).
  rewrite span_all; [reflexivity| |exact Hrest].
  cbn [forallb]. now rewrite Hvc, Hv.
Qed.

Lemma span_stop (p : char -> bool) (rest : str) :
  match rest with [] => True | x :: _ => p x = false end ->
  span p rest = ([], rest).
Proof. destruct rest as [|x rest]; cbn; [reflexivity|]. now intros ->. Qed.

(** A space is a white-space token of its own when the text does not go on
    with white space. *)
Lemma first_match_space (rest : str) :
  match rest with [] => True | x :: _ => is_space x = false end ->
  first_match LEXER (js " " ++ rest) = Some (whitespace, js " ").
Proof.
  intros Hrest. pose proof (span_stop is_space rest Hrest) as Hspan.
  unfold LEXER, first_match, match_kind, lit, many1. cbn.
  now rewrite Hspan.
Qed.

(** ** The bound of [parse] is never reached *)

Module Total.
Import Parser.

Lemma post_bind {I A B : Type} (Q : B -> t I -> Prop) (m : M I A)
    (k : A -> M I B) (p : t I) :
  post (fun a p' => post Q (k a p')) (m p) -> post Q (bind m k p).
Proof. unfold bind. now destruct (m p). Qed.

Lemma post_weaken {S A : Type} (P Q : A -> S -> Prop) (r : outcome S A) :
  post P r -> (forall a p, P a p -> Q a p) -> post Q r.
Proof. destruct r; cbn; auto. Qed.

(** A call of [next] on a generator in order: a token leaves less to do,
    and the end leaves nothing. *)
Lemma next_rem (g : Generator) :
  gen_ok g ->
  match next g with
  | Yielded tok g' =>
      gen_ok g' /\ gen_pc g' <> GenDone /\ type tok <> eof /\ rem g' < rem g
  | Finished g' => gen_ok g' /\ gen_pc g' = GenDone
  | Raised _ => True
  end.
Proof.
  intros Hok. destruct (next g) as [tok g'|g'|e] eqn:Hn; [| |exact I].
  - destruct (next_yield_ok _ _ _ Hok Hn)
      as (Hok' & Hcode & Hnd & Hpos & Hsp & Hle & Hm).
    repeat split; auto.
    + apply first_match_In in Hm as [Hin _]. intros Heof. rewrite Heof in Hin.
      unfold LEXER in Hin. cbn [In] in Hin. intuition discriminate.
    + assert (Hnd0 : gen_pc g <> GenDone).
      { intros Hpc. unfold next in Hn. rewrite Hpc in Hn. discriminate. }
      unfold rem. rewrite Hcode.
      destruct (gen_pc g'); [| |congruence];
        (destruct (gen_pc g); [| |congruence]); lia.
  - unfold next, tokenize_loop in Hn.
    destruct (gen_pc g) eqn:Hpc.
    3: { injection Hn as <-. rewrite Hpc. split; [exact Hok|reflexivity]. }
    all: destruct (exec (gen_code g) _) as [[m|] li];
      repeat match type of Hn with
        | (if ?b then _ else _) = _ => destruct b
        | match ?x with _ => _ end = _ => destruct x
        end; try discriminate; injection Hn as <-; split; [exact I|reflexivity].
Qed.

Lemma advance_post (n : nat) (g : Generator) :
  gen_ok g -> rem g < n ->
  post (fun _ p' => parser_ok p' /\ size p' <= rem g /\
                    (gen_pc g <> GenDone -> size p' < rem g))
       (advance next n g).
Proof.
  revert g. induction n as [|n IH]; intros g Hok Hn; [lia|].
  cbn [advance]. pose proof (next_rem g Hok) as H.
  destruct (next g) as [tok g'|g'|e]; [| |exact I].
  - destruct H as (Hok' & Hnd & Hneof & Hlt).
    destruct (kind_eqb (type tok) whitespace).
    + eapply post_weaken; [apply IH; [exact Hok'|lia]|].
      cbn beta. intros _ p' (Hp' & Hle & _).
      split; [exact Hp'|split; [lia|intros; lia]].
    + cbn [post]. unfold parser_ok, size. cbn [tokenIter cur].
      repeat split; auto; lia.
  - destruct H as (Hok' & Hdone). cbn [post].
    unfold parser_ok, size, rem. cbn [tokenIter cur type]. rewrite Hdone.
    repeat split; auto; try congruence; try lia.
    intros Hnd. destruct (gen_pc g); try congruence; lia.
Qed.

Lemma consume_post (n : nat) (ty : kind) (p : t Generator) :
  parser_ok p -> (type (cur p) = ty -> size p < n) ->
  post (consumed ty p) (consume next n ty p).
Proof.
  intros [Hok Hcur] Hn. unfold consume.
  destruct (kind_eqb (type (cur p)) ty) eqn:Hty.
  - assert (Heq : type (cur p) = ty) by (now destruct (type (cur p)), ty).
    pose proof (advance_post n (tokenIter p) Hok (Hn Heq)) as H.
    destruct (advance next n (tokenIter p)) as [[] p'| |]; cbn [post] in *;
      auto.
    destruct H as (Hok' & Hle & Hlt). unfold consumed.
    repeat split; try apply Hok'; auto.
    intros Hne. apply Hlt, Hcur. congruence.
  - cbn [post]. unfold consumed, parser_ok, size. cbn [tokenIter cur].
    repeat split; auto.
Qed.

(** For a kind other than the end of the input, twice the size is bound
    enough: a parser whose current token is of that kind has a size of one
    at least. *)
Lemma consume_token_post (n : nat) (ty : kind) (p : t Generator) :
  parser_ok p -> ty <> eof -> 2 * size p <= n ->
  post (consumed ty p) (consume next n ty p).
Proof.
  intros Hok Hne Hn. apply consume_post; [exact Hok|].
  intros Hty. destruct Hok as [_ Hcur].
  assert (Hnd : gen_pc (tokenIter p) <> GenDone) by (apply Hcur; congruence).
  unfold size, rem in *. destruct (gen_pc (tokenIter p)); try congruence; lia.
Qed.

Lemma expect_post (n : nat) (ty : kind) (p : t Generator) :
  parser_ok p -> ty <> eof -> 2 * size p <= n ->
  post (fun _ p' => parser_ok p' /\ size p' < size p) (expect next n ty p).
Proof.
  intros Hok Hne Hn. unfold expect. apply post_bind.
  eapply post_weaken; [apply consume_token_post; assumption|].
  intros [tok|] p' [Hok' H]; cbn; [|exact I]. split; [exact Hok'|].
  now apply H.
Qed.

(** One step of a method: the postcondition of the call at the head of the
    goal, then the cases of what it returned. *)
Ltac call H :=
  apply post_bind; eapply post_weaken; [apply H; auto; try lia|];
  cbn beta.

Ltac try_token :=
  apply post_bind; eapply post_weaken;
  [apply consume_token_post; [assumption|discriminate|lia]|];
  cbn beta;
  let tok := fresh "tok" in
  let p' := fresh "p" in
  let Hok := fresh "Hok" in
  let Hsz := fresh "Hsz" in
  intros [tok|] p' [Hok Hsz];
  [ destruct Hsz as [_ Hsz];
    specialize (Hsz ltac:(discriminate)) | ].

Ltac done_ret :=
  cbn [post ret throw throwUnexpectedToken]; try exact I;
  try (split; [assumption|lia]).

Lemma grammar_total_all (n : nat) : grammar_total n.
Proof.
  induction n as [|n IH]; intros p Hok.
  - repeat split; intros; lia.
  - assert (IHe : forall q, parser_ok q -> 4 * size q + 4 <= n ->
                            returns true q (expr next n q))
      by (intros q Hq; apply (IH q Hq)).
    assert (IHs : forall q, parser_ok q -> 4 * size q + 3 <= n ->
                            returns true q (sum next n q))
      by (intros q Hq; apply (IH q Hq)).
    assert (IHsl : forall tm q, parser_ok q -> 4 * size q + 1 <= n ->
                                returns false q (sum_loop next n tm q))
      by (intros tm q Hq; apply (IH q Hq)).
    assert (IHd : forall q, parser_ok q -> 4 * size q + 2 <= n ->
                            returns true q (summand next n q))
      by (intros q Hq; apply (IH q Hq)).
    assert (IHdl : forall tm q, parser_ok q -> 4 * size q + 1 <= n ->
                                 returns false q (summand_loop next n tm q))
      by (intros tm q Hq; apply (IH q Hq)).
    assert (IHf : forall q, parser_ok q -> 4 * size q + 1 <= n ->
                            returns true q (factor next n q))
      by (intros q Hq; apply (IH q Hq)).
    assert (IHa : forall q, parser_ok q -> 4 * size q + 5 <= n ->
                            returns true q (arglist next n q))
      by (intros q Hq; apply (IH q Hq)).
    clear IH. unfold returns in *.
    repeat split; intros;
      cbn [expr sum sum_loop summand summand_loop factor arglist].
    + (* expr *) apply IHs; auto; lia.
    + (* sum *)
      call IHd. intros tm p1 [Hok1 Hsz1].
      eapply post_weaken; [apply IHsl; auto; lia|].
      cbn beta. intros _ p2 [Hok2 Hsz2]. split; auto; lia.
    + (* sum_loop *)
      try_token.
      * call IHd. intros rhs p2 [Hok2 Hsz2].
        eapply post_weaken; [apply IHsl; auto; lia|].
        cbn beta. intros _ p3 [Hok3 Hsz3]. split; auto; lia.
      * try_token.
        -- call IHd. intros rhs p3 [Hok3 Hsz3].
           eapply post_weaken; [apply IHsl; auto; lia|].
           cbn beta. intros _ p4 [Hok4 Hsz4]. split; auto; lia.
        -- done_ret.
    + (* summand *)
      call IHf. intros tm p1 [Hok1 Hsz1].
      eapply post_weaken; [apply IHdl; auto; lia|].
      cbn beta. intros _ p2 [Hok2 Hsz2]. split; auto; lia.
    + (* summand_loop *)
      try_token.
      * call IHf. intros rhs p2 [Hok2 Hsz2].
        eapply post_weaken; [apply IHdl; auto; lia|].
        cbn beta. intros _ p3 [Hok3 Hsz3]. split; auto; lia.
      * try_token.
        -- call IHf. intros rhs p3 [Hok3 Hsz3].
           eapply post_weaken; [apply IHdl; auto; lia|].
           cbn beta. intros _ p4 [Hok4 Hsz4]. split; auto; lia.
        -- done_ret.
    + (* factor *)
      try_token.
      * try_token; [|done_ret].
        destruct (negb (FUNCTION_NAME (text tok))); [done_ret|].
        call IHa. intros args p3 [Hok3 Hsz3].
        call expect_post; [discriminate|].
        intros _ p4 [Hok4 Hsz4]. done_ret.
      * try_token; [done_ret|].
        try_token; [|done_ret].
        call IHe. intros tm p4 [Hok4 Hsz4].
        call expect_post; [discriminate|].
        intros _ p5 [Hok5 Hsz5]. done_ret.
    + (* arglist *)
      call IHe. intros first p1 [Hok1 Hsz1].
      try_token; done_ret.
Qed.

End Total.

(** [parse] always comes to an end within its bound: it returns a tree or
    throws. *)
Theorem parse_total (code : str) : parse code <> Exhausted.
Proof.
  unfold parse, parse_with, run, Parser.new, Parser.parse, Parser.toplevel,
    fuel_for.
  set (n := 4 * length code + 4).
  pose proof (Total.advance_post n (tokenize code) I) as Hnew.
  assert (Hrem : rem (tokenize code) = S (length code))
    by (unfold rem, scan_pos; cbn; lia).
  rewrite Hrem in Hnew. specialize (Hnew ltac:(lia)).
  destruct (Parser.advance next n (tokenize code)) as [[] p| |];
    cbn [post] in Hnew; [|discriminate|contradiction].
  destruct Hnew as (Hok & _ & Hsz).
  specialize (Hsz ltac:(discriminate)).
  destruct (Total.grammar_total_all n p Hok) as (He & _).
  specialize (He ltac:(lia)). unfold returns, Parser.bind in *.
  destruct (Parser.expr next n p) as [tm p1| |]; cbn [post] in He;
    [|discriminate|contradiction].
  destruct He as [Hok1 Hsz1].
  pose proof (Total.consume_post n eof p1 Hok1 ltac:(intros; lia)) as Hc.
  unfold Parser.expect, Parser.bind.
  destruct (Parser.consume next n eof p1) as [[tok|] p2| |]; cbn [post] in Hc;
    try discriminate; try contradiction.
Qed.

(** ** Argument lists *)

(** [arglist] never gets past a comma: an array it returns has one item. *)
Lemma arglist_one_argument {I : Type} (next : I -> IterResult I) (n : nat)
    (p p' : Parser.t I) (args : list term) :
  Parser.arglist next n p = Ret args p' -> length args = 1.
Proof.
  destruct n as [|n]; [discriminate|].
  change (Parser.arglist next (S n) p) with
    (Parser.bind (Parser.expr next n)
       (fun first =>
          Parser.bind (Parser.consume next n comma)
            (fun comma_tok =>
               match comma_tok with
               | Some _ =>
                   Parser.throw (ReferenceError (js "expr is not defined"))
               | None => Parser.ret [first]
               end)) p).
  unfold Parser.bind.
  destruct (Parser.expr next n p) as [first p1| |]; try discriminate.
  destruct (Parser.consume next n comma p1) as [[tok|] p2| |];
    unfold Parser.throw, Parser.ret; try discriminate.
  intros H. injection H as <- _. reflexivity.
Qed.

(** ** Precedence and associativity *)

Lemma first_match_space_word (w rest : str) :
  is_word w = true ->
  first_match LEXER (js " " ++ w ++ rest) = Some (whitespace, js " ").
Proof.
  destruct w as [|c v]; [discriminate|]. cbn [is_word]. intros Hw.
  apply andb_true_iff in Hw as [Hc _]. apply first_match_space.
  cbn [app]. apply (alnum_cases c Hc).
Qed.

Lemma parse_chain_result (toks : list Token) (r : completion term) :
  chain toks ->
  parse_stream (4 * length toks + 4) (toks, None) = r -> r <> Exhausted ->
  parse (concat (map text toks)) = r.
Proof.
  intros Hchain <- Hr. now apply parse_chain.
Qed.

(** Each token of a formula written with words, single spaces and
    operators is what the alternation matches where it stands. *)
Ltac chain_step :=
  first
    [ exact Logic.I
    | reflexivity
    | apply first_match_space_word; assumption
    | apply first_match_space; exact eq_refl
    | apply first_match_word; [assumption|exact eq_refl]
    | apply first_match_word; [assumption|exact Logic.I] ].

Ltac prove_chain :=
  cbn [chain map concat text type word space symbol];
  repeat (split; [chain_step|]); chain_step.

(** A formula of five tokens separated by single spaces. *)
Lemma parse_five (a b c : str) (k1 k2 : kind) (r : completion term) :
  is_word a = true -> is_word b = true -> is_word c = true ->
  In k1 [plus; minus; times; divided] ->
  In k2 [plus; minus; times; divided] ->
  parse_stream 40
    ([word a; space; symbol k1; space; word b; space; symbol k2; space;
      word c], None) = r ->
  r <> Exhausted ->
  parse (a ++ js " " ++ TOKEN_TYPES k1 ++ js " " ++ b ++ js " "
           ++ TOKEN_TYPES k2 ++ js " " ++ c) = r.
Proof.
  intros Ha Hb Hc H1 H2 Hr Hex.
  rewrite <- (app_nil_r c).
  apply (parse_chain_result
           [word a; space; symbol k1; space; word b; space; symbol k2; space;
            word c] r); [|exact Hr|exact Hex].
  cbn [In] in H1, H2.
  destruct H1 as [<-|[<-|[<-|[<-|[]]]]], H2 as [<-|[<-|[<-|[<-|[]]]]];
    prove_chain.
Qed.

(** C6. Precedence.  For any three words, an operator of the additive tier
    binds looser than one of the multiplicative tier, on whichever side the
    latter stands; so [parse("1 + 2 * 3")] is
    [["+", "1", ["*", "2", "3"]]]. *)
Theorem parse_precedence (o : additive) (m : multiplicative) (a b c : str) :
  is_word a = true -> is_word b = true -> is_word c = true ->
  parse (a ++ js " " ++ additive_symbol o ++ js " " ++ b ++ js " "
           ++ multiplicative_symbol m ++ js " " ++ c)
    = Returns (Arr [Str (additive_symbol o); Str a;
                    Arr [Str (multiplicative_symbol m); Str b; Str c]])
  /\
  parse (a ++ js " " ++ multiplicative_symbol m ++ js " " ++ b ++ js " "
           ++ additive_symbol o ++ js " " ++ c)
    = Returns (Arr [Str (additive_symbol o);
                    Arr [Str (multiplicative_symbol m); Str a; Str b];
                    Str c]).
Proof.
  intros Ha Hb Hc. unfold additive_symbol, multiplicative_symbol.
  split; apply parse_five; auto;
    destruct o, m; cbn [additive_kind multiplicative_kind In]; auto;
    try discriminate; vm_compute; reflexivity.
Qed.

Lemma parse_precedence_witness :
  parse (js "1 + 2 * 3")
    = Returns (Arr [Str (js "+"); Str (js "1");
                    Arr [Str (js "*"); Str (js "2"); Str (js "3")]]) /\
  parse (js "1 * 2 + 3")
    = Returns (Arr [Str (js "+");
                    Arr [Str (js "*"); Str (js "1"); Str (js "2")];
                    Str (js "3")]).
Proof.
  apply (parse_precedence Add Mul (js "1") (js "2") (js "3")); reflexivity.
Defined.

(** C7. Left associativity.  For any three words, two operators of the
    same tier group to the left; so [parse("1 - 2 - 3")] is
    [["-", ["-", "1", "2"], "3"]]. *)
Theorem parse_left_associative (a b c : str) :
  is_word a = true -> is_word b = true -> is_word c = true ->
  (forall o1 o2 : additive,
     parse (a ++ js " " ++ additive_symbol o1 ++ js " " ++ b ++ js " "
              ++ additive_symbol o2 ++ js " " ++ c)
       = Returns (Arr [Str (additive_symbol o2);
                       Arr [Str (additive_symbol o1); Str a; Str b];
                       Str c]))
  /\
  (forall m1 m2 : multiplicative,
     parse (a ++ js " " ++ multiplicative_symbol m1 ++ js " " ++ b ++ js " "
              ++ multiplicative_symbol m2 ++ js " " ++ c)
       = Returns (Arr [Str (multiplicative_symbol m2);
                       Arr [Str (multiplicative_symbol m1); Str a; Str b];
                       Str c])).
Proof.
  intros Ha Hb Hc. unfold additive_symbol, multiplicative_symbol.
  split; intros o1 o2; apply parse_five; auto;
    destruct o1, o2; cbn [additive_kind multiplicative_kind In]; auto;
    try discriminate; vm_compute; reflexivity.
Qed.

Lemma parse_left_associative_witness :
  parse (js "1 - 2 - 3")
    = Returns (Arr [Str (js "-");
                    Arr [Str (js "-"); Str (js "1"); Str (js "2")];
                    Str (js "3")]).
Proof.
  apply (proj1 (parse_left_associative (js "1") (js "2") (js "3")
                  eq_refl eq_refl eq_refl) Sub Sub).
Defined.

(** ** Function calls *)

Lemma function_name_word (f : str) :
  FUNCTION_NAME f = true -> is_word f = true.
Proof.
  destruct f as [|c v]; [discriminate|]. cbn [FUNCTION_NAME forallb is_word].
  rewrite !andb_true_iff. intros [Hc Hv]. split.
  - unfold is_alnum. now rewrite Hc.
  - rewrite forallb_forall in *. intros x Hx. unfold is_value_char.
    now rewrite (Hv x Hx).
Qed.

(** What [factor] does with a name followed by an opening parenthesis,
    once the two tokens are consumed. *)
Lemma factor_call {I : Type} (next : I -> IterResult I) (n : nat)
    (p p1 p2 : Parser.t I) (name lp : Token) :
  Parser.consume next n value p = Ret (Some name) p1 ->
  Parser.consume next n lparen p1 = Ret (Some lp) p2 ->
  FUNCTION_NAME (text name) = true ->
  Parser.factor next (S n) p =
    Parser.bind (Parser.arglist next n)
      (fun args =>
         Parser.bind (Parser.expect next n rparen)
           (fun _ => Parser.ret (Arr (Str (text name) :: args)))) p2.
Proof.
  intros Hname Hlp Hvalid.
  change (Parser.factor next (S n) p) with
    (Parser.bind (Parser.consume next n value)
       (fun tm =>
          match tm with
          | Some tm =>
              Parser.bind (Parser.consume next n lparen)
                (fun lp =>
                   match lp with
                   | Some _ =>
                       if negb (FUNCTION_NAME (text tm)) then
                         Parser.throw
                           (Error (text tm
                                     ++ js " is not a valid function name"))
                       else
                         Parser.bind (Parser.arglist next n)
                           (fun args =>
                              Parser.bind (Parser.expect next n rparen)
                                (fun _ =>
                                   Parser.ret (Arr (Str (text tm) :: args))))
                   | None => Parser.ret (Str (text tm))
                   end)
          | None =>
              Parser.bind (Parser.consume next n quoted)
                (fun tm =>
                   match tm with
                   | Some tm => Parser.ret (Str (Parser.strip_quotes (text tm)))
                   | None =>
                       Parser.bind (Parser.consume next n lparen)
                         (fun lp =>
                            match lp with
                            | Some _ =>
                                Parser.bind (Parser.expr next n)
                                  (fun tm =>
                                     Parser.bind
                                       (Parser.expect next n rparen)
                                       (fun _ => Parser.ret tm))
                            | None => Parser.throwUnexpectedToken
                            end)
                   end)
          end) p).
  unfold Parser.bind at 1. rewrite Hname.
  unfold Parser.bind at 1. rewrite Hlp.
  now rewrite Hvalid.
Qed.

(** An error thrown by the first [factor] of a formula is the error of
    [parse]. *)
Lemma toplevel_factor_throws {I : Type} (next : I -> IterResult I) (n : nat)
    (p : Parser.t I) (e : JsError) :
  Parser.factor next n p = Throw e ->
  Parser.toplevel next (S (S (S n))) p = Throw e.
Proof.
  intros H. unfold Parser.toplevel.
  change (Parser.expr next (S (S (S n)))) with
    (Parser.bind
       (Parser.bind (Parser.factor next n) (Parser.summand_loop next n))
       (Parser.sum_loop next (S n))).
  unfold Parser.bind. now rewrite H.
Qed.

(** C1. Function call with two arguments.  For any function name and any
    two words as arguments, the parser consumes the comma and then
    evaluates [this.consume(expr)], where [expr] is an unbound identifier:
    the call of [parse] ends with a [ReferenceError] and returns no call
    node.  So does [parse("sum(A1, B2)")]. *)
Theorem parse_call_two_arguments :
  (forall f x y : str,
     FUNCTION_NAME f = true -> is_word x = true -> is_word y = true ->
     parse (f ++ js "(" ++ x ++ js "," ++ js " " ++ y ++ js ")")
       = Throws (ReferenceError (js "expr is not defined")))
  /\
  parse (js "sum(A1, B2)")
    = Throws (ReferenceError (js "expr is not defined")).
Proof.
  split; [|vm_compute; reflexivity].
  intros f x y Hf Hx Hy. pose proof (function_name_word f Hf) as Hw.
  apply (parse_chain_result
           [word f; symbol lparen; word x; symbol comma; space; word y;
            symbol rparen]); [prove_chain| |discriminate].
  unfold parse_stream, run, Parser.new, Parser.parse.
  change (4 * length _ + 4) with 32.
  change (Parser.advance next_stream 32 _) with
    (Ret (S := Parser.t Stream) tt
       {| Parser.tokenIter :=
            ([symbol lparen; word x; symbol comma; space; word y;
              symbol rparen], None);
          Parser.attemptedTypes := [];
          Parser.cur := word f |}).
  cbv beta iota.
  rewrite (toplevel_factor_throws next_stream 29 _
             (ReferenceError (js "expr is not defined"))); [reflexivity|].
  rewrite (factor_call next_stream 28 _
             {| Parser.tokenIter :=
                  ([word x; symbol comma; space; word y; symbol rparen],
                   None);
                Parser.attemptedTypes := [];
                Parser.cur := symbol lparen |}
             {| Parser.tokenIter :=
                  ([symbol comma; space; word y; symbol rparen], None);
                Parser.attemptedTypes := [];
                Parser.cur := word x |}
             (word f) (symbol lparen)); [|reflexivity|reflexivity|exact Hf].
  (* The argument list: one expression, the comma, and the unbound name. *)
  vm_compute. reflexivity.
Qed.

Lemma parse_call_two_arguments_witness :
  parse (js "max(A1:B2, C3)")
    = Throws (ReferenceError (js "expr is not defined")).
Proof.
  apply (proj1 parse_call_two_arguments (js "max") (js "A1:B2") (js "C3"));
    reflexivity.
Defined.

(** ** Errors *)

Lemma add_In (k : kind) (s : list kind) : In k (Parser.add k s).
Proof.
  unfold Parser.add. destruct (existsb (kind_eqb k) s) eqn:He.
  - apply existsb_exists in He as (k' & Hin & Heq). now destruct k, k'.
  - apply in_or_app. right. now left.
Qed.

Lemma add_incl (k k' : kind) (s : list kind) :
  In k s -> In k (Parser.add k' s).
Proof.
  intros H. unfold Parser.add. destruct (existsb (kind_eqb k') s); [exact H|].
  apply in_or_app. now left.
Qed.

(** A token that is no bare value, no quoted text and no opening
    parenthesis starts no factor: the three attempts are recorded and
    [throwUnexpectedToken] reports them. *)
Lemma factor_rejects {I : Type} (next : I -> IterResult I) (n : nat)
    (p : Parser.t I) :
  type (Parser.cur p) <> value ->
  type (Parser.cur p) <> quoted ->
  type (Parser.cur p) <> lparen ->
  Parser.factor next (S n) p =
    Throw (Parser.unexpectedToken
             {| Parser.tokenIter := Parser.tokenIter p;
                Parser.attemptedTypes :=
                  Parser.add lparen
                    (Parser.add quoted
                       (Parser.add value (Parser.attemptedTypes p)));
                Parser.cur := Parser.cur p |}).
Proof.
  intros Hv Hq Hl.
  assert (Hneq : forall k, type (Parser.cur p) <> k ->
                           kind_eqb (type (Parser.cur p)) k = false).
  { intros k. destruct (type (Parser.cur p)), k; intros Hk;
      try reflexivity; congruence. }
  cbn [Parser.factor]. unfold Parser.bind, Parser.consume.
  rewrite (Hneq _ Hv). cbn [Parser.cur Parser.attemptedTypes Parser.tokenIter].
  rewrite (Hneq _ Hq). cbn [Parser.cur Parser.attemptedTypes Parser.tokenIter].
  rewrite (Hneq _ Hl). reflexivity.
Qed.

(** C8. Premature end.  When the current token is the end of the input,
    [factor] fails; the message lists the descriptions of the kinds tried
    on that token, the literal value, the quoted string and the opening
    parenthesis among them, and says that the end of the string was
    found.  [parse("1 +")] fails in this way. *)
Theorem factor_at_end_of_input :
  (forall (I : Type) (next : I -> IterResult I) (n : nat) (p : Parser.t I),
     type (Parser.cur p) = eof ->
     let tried :=
       Parser.add lparen
         (Parser.add quoted (Parser.add value (Parser.attemptedTypes p))) in
     In value tried /\ In quoted tried /\ In lparen tried /\
     Parser.factor next (S n) p =
       Throw (Error (js "Expected one of: "
                       ++ join (js ", ") (map TOKEN_TYPES tried)
                       ++ js "; got " ++ TOKEN_TYPES eof)))
  /\
  parse (js "1 +") =
    Throws (Error (js "Expected one of: a literal value, a quoted string, (; got [end of string]")).
Proof.
  split; [|vm_compute; reflexivity].
  intros I next' n p Heof tried. subst tried.
  repeat split; auto using add_In, add_incl.
  rewrite factor_rejects by (rewrite Heof; discriminate).
  unfold Parser.unexpectedToken. cbn [Parser.cur Parser.attemptedTypes].
  now rewrite Heof.
Qed.

Lemma factor_at_end_of_input_witness :
  Parser.factor next 1
    {| Parser.tokenIter := {| gen_code := js "1 +"; gen_pc := GenDone |};
       Parser.attemptedTypes := [];
       Parser.cur := {| type := eof; text := [] |} |}
  = Throw (Error (js "Expected one of: a literal value, a quoted string, (; got [end of string]")).
Proof.
  exact (proj2 (proj2 (proj2
    (proj1 factor_at_end_of_input Generator next 0
       {| Parser.tokenIter := {| gen_code := js "1 +"; gen_pc := GenDone |};
          Parser.attemptedTypes := [];
          Parser.cur := {| type := eof; text := [] |} |}
       eq_refl)))).
Defined.

(** C9. Empty quoted string.  The quoted alternative needs a character
    between its two quotes: where the text has two quotes in a row, neither
    it nor any other alternative matches, and [parse] of the two quotes
    alone ends with the lex error on the first of them. *)
Theorem empty_quoted_string_rejected :
  (forall rest : str, match_kind quoted (dquote :: dquote :: rest) = None) /\
  (forall rest : str, first_match LEXER (dquote :: dquote :: rest) = None) /\
  parse [dquote; dquote]
    = Throws (Error (js "Unexpected token end " ++ [dquote])).
Proof. repeat split. Qed.

(** ** Lex errors *)

Lemma reachable_ok (code : str) (g : Generator) :
  reachable code g ->
  gen_ok g /\ gen_code g = code /\ gen_pc g <> GenDone.
Proof.
  induction 1 as [|g g' tok _ (Hok & Hcode & _) Hn].
  - repeat split. discriminate.
  - destruct (next_yield_ok _ _ _ Hok Hn) as (Hok' & Hcode' & Hnd & _).
    repeat split; congruence.
Qed.

(** C3. Lex gap.  When the scan has reached a character at which no
    alternative matches, the call of [next] throws an error whose message
    is one of two fixed texts followed by that character; the offset is no
    part of it.  [parse("1 $ 2")] throws ["Unexpected token $"]. *)
Theorem lex_gap_error :
  (forall (code : str) (g : Generator) (c : char),
     reachable code g ->
     nth_error code (scan_pos g) = Some c ->
     first_match LEXER (skipn (scan_pos g) code) = None ->
     next g = Raised (Error (js "Unexpected token " ++ [c])) \/
     next g = Raised (Error (js "Unexpected token end " ++ [c])))
  /\
  parse (js "1 $ 2") = Throws (Error (js "Unexpected token $")).
Proof.
  split; [|vm_compute; reflexivity].
  intros code g c Hreach Hc Hgap.
  destruct (reachable_ok code g Hreach) as (Hok & Hcode & Hnd).
  pose proof (next_cases g Hok Hnd) as H. cbv zeta in H.
  rewrite Hcode, Hgap, Hc in H. exact H.
Qed.

Lemma lex_gap_error_witness :
  next {| gen_code := js "1 $ 2";
          gen_pc := GenYield 2 1 whitespace (js " ") |}
    = Raised (Error (js "Unexpected token $")) \/
  next {| gen_code := js "1 $ 2";
          gen_pc := GenYield 2 1 whitespace (js " ") |}
    = Raised (Error (js "Unexpected token end $")).
Proof.
  apply (proj1 lex_gap_error (js "1 $ 2")
           {| gen_code := js "1 $ 2";
              gen_pc := GenYield 2 1 whitespace (js " ") |} 36%N).
  - apply (reachable_next (js "1 $ 2")
             {| gen_code := js "1 $ 2"; gen_pc := GenYield 1 0 value (js "1") |}
             _ {| type := whitespace; text := js " " |}).
    + apply (reachable_next (js "1 $ 2") (tokenize (js "1 $ 2"))
               _ {| type := value; text := js "1" |}).
      * apply reachable_start.
      * reflexivity.
    + reflexivity.
  - reflexivity.
  - reflexivity.
Defined.

(** The message of the error of [parse("1 $ 2")] has the character in it
    and not the offset 2. *)
Lemma lex_gap_offset_not_named :
  exists e : JsError,
    parse (js "1 $ 2") = Throws e /\
    includes (message_of e) (js "$") = true /\
    includes (message_of e) (decimal 2) = false.
Proof.
  exists (Error (js "Unexpected token $")). repeat split.
Qed.

(** ** Hyphens *)

(** C5. No unary minus.  The minus alternative comes before the bare value
    in [LEXER], so a hyphen at the start of a token is a minus token of its
    own.  The grammar has no production that starts with one: [factor]
    throws on a minus token, and [parse] of any text that begins with a
    hyphen throws at that token. *)
Theorem leading_hyphen_is_minus :
  (forall rest : str,
     first_match LEXER (hyphen :: rest) = Some (minus, [hyphen])) /\
  (forall (I : Type) (next : I -> IterResult I) (n : nat) (p : Parser.t I),
     type (Parser.cur p) = minus ->
     exists tried : list kind,
       Parser.factor next (S n) p =
         Throw (Error (js "Expected one of: "
                         ++ join (js ", ") (map TOKEN_TYPES tried)
                         ++ js "; got "
                         ++ [squote] ++ text (Parser.cur p) ++ [squote]))) /\
  (forall rest : str,
     parse (hyphen :: rest) =
       Throws (Error (js "Expected one of: a literal value, a quoted string, (; got '-'"))).
Proof.
  split; [reflexivity|]. split.
  - intros I next' n p Hminus. eexists.
    rewrite factor_rejects by (rewrite Hminus; discriminate).
    unfold Parser.unexpectedToken. cbn [Parser.cur Parser.attemptedTypes].
    rewrite Hminus. reflexivity.
  - intros rest.
    assert (H4 : parse_with 4 (hyphen :: rest) =
      Throws (Error (js "Expected one of: a literal value, a quoted string, (; got '-'")))
      by (vm_compute; reflexivity).
    unfold parse. rewrite <- H4. apply parse_with_monotone.
    + unfold fuel_for. lia.
    + rewrite H4. discriminate.
Qed.

Lemma leading_hyphen_is_minus_witness :
  exists tried : list kind,
    Parser.factor next 1
      {| Parser.tokenIter :=
           {| gen_code := js "-5"; gen_pc := GenYield 1 0 minus (js "-") |};
         Parser.attemptedTypes := [];
         Parser.cur := {| type := minus; text := js "-" |} |}
    = Throw (Error (js "Expected one of: "
                      ++ join (js ", ") (map TOKEN_TYPES tried)
                      ++ js "; got '-'")).
Proof.
  exact (proj1 (proj2 leading_hyphen_is_minus) Generator next 0
           {| Parser.tokenIter :=
                {| gen_code := js "-5";
                   gen_pc := GenYield 1 0 minus (js "-") |};
              Parser.attemptedTypes := [];
              Parser.cur := {| type := minus; text := js "-" |} |}
           eq_refl).
Defined.

(** The text ["-5"] is two tokens, and [parse] does not return it as a
    leaf. *)
Lemma negative_literal_not_a_leaf :
  tokens (js "-5")
    = Some ([ {| type := minus; text := js "-" |};
              {| type := value; text := js "5" |} ], None) /\
  parse (js "-5") <> Returns (Str (js "-5")).
Proof. split; [reflexivity|]. vm_compute. discriminate. Qed.

(** A word alone is one token and one leaf. *)
Lemma parse_word (w : str) :
  is_word w = true ->
  tokens w = Some ([word w], None) /\ parse w = Returns (Str w).
Proof.
  intros Hw.
  assert (Hchain : chain [word w]) by prove_chain.
  rewrite <- (app_nil_r w) at 1 3. split.
  - apply (chain_tokens [word w] Hchain).
  - now apply (parse_chain_result [word w]).
Qed.

(** C10. A hyphen inside a bare value.  Two runs of letters and digits
    with a hyphen between them and no space are one bare-value token, and
    [parse] returns the whole text as one leaf and not a subtraction; so
    [parse("1-2")] is ["1-2"]. *)
Theorem hyphen_inside_value (a b : str) :
  a <> [] -> b <> [] ->
  forallb is_alnum a = true -> forallb is_alnum b = true ->
  let code := a ++ [hyphen] ++ b in
  tokens code = Some ([ {| type := value; text := code |} ], None) /\
  parse code = Returns (Str code) /\
  parse code <> Returns (Arr [Str (js "-"); Str a; Str b]).
Proof.
  intros Ha Hb Halnum_a Halnum_b code.
  assert (Hvalue : forall s, forallb is_alnum s = true ->
                             forallb is_value_char s = true).
  { intros s. rewrite !forallb_forall. intros H x Hx.
    unfold is_value_char. fold (is_alnum x). now rewrite (H x Hx). }
  assert (Hword : is_word code = true).
  { subst code. destruct a as [|c a]; [congruence|].
    cbn [forallb] in Halnum_a. apply andb_true_iff in Halnum_a as [Hc Ha'].
    cbn [app is_word]. rewrite Hc, !forallb_app. cbn [forallb].
    now rewrite (Hvalue a Ha'), (Hvalue b Halnum_b). }
  destruct (parse_word code Hword) as [Htoks Hparse].
  repeat split; auto. rewrite Hparse. discriminate.
Qed.

Lemma hyphen_inside_value_witness :
  tokens (js "1-2") = Some ([ {| type := value; text := js "1-2" |} ], None) /\
  parse (js "1-2") = Returns (Str (js "1-2")) /\
  parse (js "1-2") <> Returns (Arr [Str (js "-"); Str (js "1"); Str (js "2")]).
Proof.
  apply (hyphen_inside_value (js "1") (js "2")).
  - discriminate.
  - discriminate.
  - reflexivity.
  - reflexivity.
Defined.

(** * Further properties of the parser *)

(** A formula that is the texts of a chain of tokens, one after the other. *)
Lemma parse_chain_text (toks : list Token) (code : str)
    (r : completion term) :
  concat (map text toks) = code -> chain toks ->
  parse_stream (4 * length toks + 4) (toks, None) = r -> r <> Exhausted ->
  parse code = r.
Proof. intros <-. apply parse_chain_result. Qed.

Ltac spell_chain :=
  cbn [map concat text word space symbol]; rewrite ?app_nil_r; reflexivity.

(** ** Parentheses and spacing *)

(** A parenthesis group is a factor: the operator inside it is applied
    first, whatever the tiers of the two operators. *)
Theorem parse_parenthesis_override (k1 k2 : kind) (a b c : str) :
  In k1 [plus; minus; times; divided] ->
  In k2 [plus; minus; times; divided] ->
  is_word a = true -> is_word b = true -> is_word c = true ->
  parse (js "(" ++ a ++ js " " ++ TOKEN_TYPES k1 ++ js " " ++ b ++ js ")"
           ++ js " " ++ TOKEN_TYPES k2 ++ js " " ++ c)
    = Returns (Arr [Str (TOKEN_TYPES k2);
                    Arr [Str (TOKEN_TYPES k1); Str a; Str b];
                    Str c]).
Proof.
  intros H1 H2 Ha Hb Hc. cbn [In] in H1, H2.
  apply (parse_chain_text
           [symbol lparen; word a; space; symbol k1; space; word b;
            symbol rparen; space; symbol k2; space; word c]);
    [spell_chain| | |discriminate];
    destruct H1 as [<-|[<-|[<-|[<-|[]]]]], H2 as [<-|[<-|[<-|[<-|[]]]]];
    try prove_chain; vm_compute; reflexivity.
Qed.

Lemma parse_parenthesis_override_witness :
  parse (js "(1 + 2) * 3")
    = Returns (Arr [Str (js "*");
                    Arr [Str (js "+"); Str (js "1"); Str (js "2")];
                    Str (js "3")]).
Proof.
  apply (parse_parenthesis_override plus times (js "1") (js "2") (js "3"));
    cbn [In]; auto.
Defined.

(** The operators [+], [*] and [/] need no space around them; a minus
    needs one before it, and none after it. *)
Theorem parse_operator_spacing (a b : str) :
  is_word a = true -> is_word b = true ->
  (forall k, In k [plus; times; divided] ->
     parse (a ++ TOKEN_TYPES k ++ b)
       = Returns (Arr [Str (TOKEN_TYPES k); Str a; Str b])) /\
  parse (a ++ js " -" ++ b) = Returns (Arr [Str (js "-"); Str a; Str b]).
Proof.
  intros Ha Hb. split.
  - intros k Hk. cbn [In] in Hk.
    apply (parse_chain_text [word a; symbol k; word b]);
      [spell_chain| | |discriminate];
      destruct Hk as [<-|[<-|[<-|[]]]];
      try prove_chain; vm_compute; reflexivity.
  - apply (parse_chain_text [word a; space; symbol minus; word b]);
      [spell_chain|prove_chain| |discriminate]; vm_compute; reflexivity.
Qed.

Lemma parse_operator_spacing_witness :
  parse (js "A1*2") = Returns (Arr [Str (js "*"); Str (js "A1"); Str (js "2")]).
Proof.
  apply (proj1 (parse_operator_spacing (js "A1") (js "2") eq_refl eq_refl)
           times).
  cbn [In]. auto.
Defined.

(** ** Function calls with one argument or none *)

(** What [factor] does with an invalid name followed by an opening
    parenthesis: the name is checked once the parenthesis is consumed, before
    any argument is parsed. *)
Lemma factor_call_invalid {I : Type} (next : I -> IterResult I) (n : nat)
    (p p1 p2 : Parser.t I) (name lp : Token) :
  Parser.consume next n value p = Ret (Some name) p1 ->
  Parser.consume next n lparen p1 = Ret (Some lp) p2 ->
  FUNCTION_NAME (text name) = false ->
  Parser.factor next (S n) p =
    Throw (Error (text name ++ js " is not a valid function name")).
Proof.
  intros Hname Hlp Hinvalid.
  change (Parser.factor next (S n) p) with
    (Parser.bind (Parser.consume next n value)
       (fun tm =>
          match tm with
          | Some tm =>
              Parser.bind (Parser.consume next n lparen)
                (fun lp =>
                   match lp with
                   | Some _ =>
                       if negb (FUNCTION_NAME (text tm)) then
                         Parser.throw
                           (Error (text tm
                                     ++ js " is not a valid function name"))
                       else
                         Parser.bind (Parser.arglist next n)
                           (fun args =>
                              Parser.bind (Parser.expect next n rparen)
                                (fun _ =>
                                   Parser.ret (Arr (Str (text tm) :: args))))
                   | None => Parser.ret (Str (text tm))
                   end)
          | None =>
              Parser.bind (Parser.consume next n quoted)
                (fun tm =>
                   match tm with
                   | Some tm => Parser.ret (Str (Parser.strip_quotes (text tm)))
                   | None =>
                       Parser.bind (Parser.consume next n lparen)
                         (fun lp =>
                            match lp with
                            | Some _ =>
                                Parser.bind (Parser.expr next n)
                                  (fun tm =>
                                     Parser.bind
                                       (Parser.expect next n rparen)
                                       (fun _ => Parser.ret tm))
                            | None => Parser.throwUnexpectedToken
                            end)
                   end)
          end) p).
  unfold Parser.bind at 1. rewrite Hname.
  unfold Parser.bind at 1. rewrite Hlp.
  now rewrite Hinvalid.
Qed.

(** What [toplevel] goes on with once the first [factor] has returned. *)
Lemma toplevel_factor_returns {I : Type} (next : I -> IterResult I) (n : nat)
    (p p1 : Parser.t I) (tm : term) :
  Parser.factor next n p = Ret tm p1 ->
  Parser.toplevel next (S (S (S n))) p =
    Parser.bind
      (Parser.bind (Parser.summand_loop next n tm)
         (Parser.sum_loop next (S n)))
      (fun tm' =>
         Parser.bind (Parser.expect next (S (S (S n))) eof)
           (fun _ => Parser.ret tm')) p1.
Proof.
  intros H. unfold Parser.toplevel.
  change (Parser.expr next (S (S (S n)))) with
    (Parser.bind
       (Parser.bind (Parser.factor next n) (Parser.summand_loop next n))
       (Parser.sum_loop next (S n))).
  unfold Parser.bind. now rewrite H.
Qed.

(** The parser of a stream that starts with a token other than white
    space: that token is the current one when [toplevel] is called. *)
Lemma run_stream_first (tok : Token) (toks : list Token)
    (e : option JsError) (n : nat) :
  kind_eqb (type tok) whitespace = false ->
  parse_stream (S n) (tok :: toks, e) =
    match
      Parser.toplevel next_stream (S n)
        {| Parser.tokenIter := (toks, e);
           Parser.attemptedTypes := [];
           Parser.cur := tok |}
    with
    | Ret tm _ => Returns tm
    | Throw e' => Throws e'
    | OutOfFuel => Exhausted
    end.
Proof.
  intros Htok. unfold parse_stream, run, Parser.new, Parser.parse.
  change (Parser.advance next_stream (S n) (tok :: toks, e)) with
    (if kind_eqb (type tok) whitespace
     then Parser.advance next_stream n (toks, e)
     else Ret tt {| Parser.tokenIter := (toks, e);
                    Parser.attemptedTypes := [];
                    Parser.cur := tok |}).
  now rewrite Htok.
Qed.

(** A call with one argument returns the name and the argument. *)
Theorem parse_call_one_argument (f x : str) :
  FUNCTION_NAME f = true -> is_word x = true ->
  parse (f ++ js "(" ++ x ++ js ")") = Returns (Arr [Str f; Str x]).
Proof.
  intros Hf Hx. pose proof (function_name_word f Hf) as Hw.
  apply (parse_chain_text [word f; symbol lparen; word x; symbol rparen]);
    [spell_chain|prove_chain| |discriminate].
  change (4 * length _ + 4) with 20.
  rewrite run_stream_first by reflexivity.
  rewrite (toplevel_factor_returns next_stream 17 _
             {| Parser.tokenIter := ([], None);
                Parser.attemptedTypes := [];
                Parser.cur := {| type := eof; text := [] |} |}
             (Arr [Str f; Str x])).
  - vm_compute. reflexivity.
  - rewrite (factor_call next_stream 16 _
               {| Parser.tokenIter := ([word x; symbol rparen], None);
                  Parser.attemptedTypes := [];
                  Parser.cur := symbol lparen |}
               {| Parser.tokenIter := ([symbol rparen], None);
                  Parser.attemptedTypes := [];
                  Parser.cur := word x |}
               (word f) (symbol lparen));
      [|reflexivity|reflexivity|exact Hf].
    vm_compute. reflexivity.
Qed.

Lemma parse_call_one_argument_witness :
  parse (js "sum(A1:B2)") = Returns (Arr [Str (js "sum"); Str (js "A1:B2")]).
Proof.
  apply (parse_call_one_argument (js "sum") (js "A1:B2")); reflexivity.
Defined.

(** A call without an argument is refused: [arglist] asks for an
    expression, and the closing parenthesis starts none. *)
Theorem parse_call_no_argument (f : str) :
  FUNCTION_NAME f = true ->
  parse (f ++ js "()") =
    Throws (Error (js "Expected one of: a literal value, a quoted string, (; got ')'")).
Proof.
  intros Hf. pose proof (function_name_word f Hf) as Hw.
  apply (parse_chain_text [word f; symbol lparen; symbol rparen]);
    [spell_chain|prove_chain| |discriminate].
  change (4 * length _ + 4) with 16.
  rewrite run_stream_first by reflexivity.
  rewrite (toplevel_factor_throws next_stream 13 _
             (Error (js "Expected one of: a literal value, a quoted string, (; got ')'")));
    [reflexivity|].
  rewrite (factor_call next_stream 12 _
             {| Parser.tokenIter := ([symbol rparen], None);
                Parser.attemptedTypes := [];
                Parser.cur := symbol lparen |}
             {| Parser.tokenIter := ([], None);
                Parser.attemptedTypes := [];
                Parser.cur := symbol rparen |}
             (word f) (symbol lparen));
    [|reflexivity|reflexivity|exact Hf].
  vm_compute. reflexivity.
Qed.

Lemma parse_call_no_argument_witness :
  parse (js "today()") =
    Throws (Error (js "Expected one of: a literal value, a quoted string, (; got ')'")).
Proof. apply (parse_call_no_argument (js "today")). reflexivity. Defined.



(** ** Quoted text *)

(** The quoted alternative takes a quote, a run of other characters that is
    not empty, and the quote that ends it. *)
Lemma first_match_quoted (body rest : str) :
  body <> [] -> forallb is_not_quote body = true ->
  first_match LEXER (dquote :: body ++ dquote :: rest)
    = Some (quoted, dquote :: body ++ [dquote]).
Proof.
  intros Hne Hbody. unfold LEXER, first_match, match_kind, lit, many1.
  cbn -[span app]. rewrite span_all; auto.
  destruct body; [congruence|reflexivity].
Qed.

Lemma strip_quotes_quoted (body : str) :
  Parser.strip_quotes (dquote :: body ++ [dquote]) = body.
Proof.
  unfold Parser.strip_quotes. cbn [N.eqb dquote Pos.eqb].
  rewrite rev_app_distr. cbn [rev app N.eqb dquote Pos.eqb].
  apply rev_involutive.
Qed.

(** A quoted text is a leaf without its quotes, whatever stands between
    them: spaces, operators and parentheses are not tokens there. *)
Theorem parse_quoted (body : str) :
  body <> [] -> forallb is_not_quote body = true ->
  parse (dquote :: body ++ [dquote]) = Returns (Str body).
Proof.
  intros Hne Hbody.
  apply (parse_chain_text
           [ {| type := quoted; text := dquote :: body ++ [dquote] |} ]);
    [cbn [map concat text]; apply app_nil_r| | |discriminate].
  - split; [|exact Logic.I]. cbn [text type map concat].
    rewrite app_nil_r. now apply first_match_quoted.
  - transitivity
      (Returns (Str (Parser.strip_quotes (dquote :: body ++ [dquote]))));
      [vm_compute; reflexivity|now rewrite strip_quotes_quoted].
Qed.

Lemma parse_quoted_witness :
  parse (dquote :: js "a + (b" ++ [dquote]) = Returns (Str (js "a + (b")).
Proof. apply (parse_quoted (js "a + (b")); [discriminate|reflexivity]. Defined.

(** ** Formulas that are not expressions *)

Lemma space_cases (c : char) :
  is_space c = true -> (c <= 32 \/ 160 <= c)%N.
Proof.
  unfold is_space. rewrite !orb_true_iff, !in_range_spec, !N.eqb_eq. lia.
Qed.

Lemma span_whole (p : char -> bool) (l : str) :
  forallb p l = true -> span p l = (l, []).
Proof.
  intros Hl. rewrite <- (app_nil_r l) at 1. now apply span_all.
Qed.

(** A run of white space is one token. *)
Lemma first_match_spaces (c : char) (v : str) :
  forallb is_space (c :: v) = true ->
  first_match LEXER (c :: v) = Some (whitespace, c :: v).
Proof.
  intros Hall. pose proof Hall as Hc'. cbn [forallb] in Hc'.
  apply andb_true_iff in Hc' as [Hc _].
  pose proof (space_cases c Hc) as Hr.
  assert (H9 : (9 <= c)%N).
  { unfold is_space in Hc.
    rewrite !orb_true_iff, !in_range_spec, !N.eqb_eq in Hc. lia. }
  assert (Hvalue : span is_value_char (c :: v) = ([], c :: v)).
  { apply span_stop. unfold is_value_char, is_alpha, is_digit, hyphen.
    now rewrite !in_range_outside, !eqb_outside by lia. }
  unfold LEXER. cbn [first_match match_kind lit]. unfold hyphen, dquote.
  rewrite !eqb_outside by lia.
  unfold many1. rewrite Hvalue, (span_whole is_space _ Hall). reflexivity.
Qed.

(** An empty formula, or one of white space only, has no factor: the end
    of the input is found where one is required. *)
Theorem parse_blank (ws : str) :
  forallb is_space ws = true ->
  parse ws =
    Throws (Error (js "Expected one of: a literal value, a quoted string, (; got [end of string]")).
Proof.
  intros Hws. destruct ws as [|c v]; [vm_compute; reflexivity|].
  apply (parse_chain_text [ {| type := whitespace; text := c :: v |} ]);
    [cbn [map concat text]; apply app_nil_r| | |discriminate].
  - split; [|exact Logic.I]. cbn [text type map concat].
    rewrite app_nil_r. now apply first_match_spaces.
  - vm_compute. reflexivity.
Qed.

Lemma parse_blank_witness :
  parse (js "   ") =
    Throws (Error (js "Expected one of: a literal value, a quoted string, (; got [end of string]")).
Proof. apply (parse_blank (js "   ")). reflexivity. Defined.

(** Two operands with no operator between them: after the first, every
    kind that could go on was tried, and the second is what was found. *)
Theorem parse_missing_operator (a b : str) :
  is_word a = true -> is_word b = true ->
  parse (a ++ js " " ++ b) =
    Throws (Error (js "Expected one of: (, *, /, +, -, [end of string]; got '"
                     ++ b ++ js "'")).
Proof.
  intros Ha Hb.
  apply (parse_chain_text [word a; space; word b]);
    [spell_chain|prove_chain| |discriminate].
  vm_compute. reflexivity.
Qed.

Lemma parse_missing_operator_witness :
  parse (js "A1 B2") =
    Throws (Error (js "Expected one of: (, *, /, +, -, [end of string]; got 'B2'")).
Proof. apply (parse_missing_operator (js "A1") (js "B2")); reflexivity. Defined.

(** A parenthesis that is not closed: the end of the input is found where
    an operator or the closing parenthesis could stand. *)
Theorem parse_unclosed_parenthesis (a : str) :
  is_word a = true ->
  parse (js "(" ++ a) =
    Throws (Error (js "Expected one of: (, *, /, +, -, ); got [end of string]")).
Proof.
  intros Ha.
  apply (parse_chain_text [symbol lparen; word a]);
    [spell_chain|prove_chain| |discriminate].
  vm_compute. reflexivity.
Qed.

Lemma parse_unclosed_parenthesis_witness :
  parse (js "(A1") =
    Throws (Error (js "Expected one of: (, *, /, +, -, ); got [end of string]")).
Proof. apply (parse_unclosed_parenthesis (js "A1")). reflexivity. Defined.

(** * Further properties of the tokenizer *)

(** ** The error that is never raised *)

Lemma search_In (l : str) (i j : nat) (k : kind) (t : str) :
  search l i = Some (j, (k, t)) -> In k LEXER.
Proof.
  intros H. apply search_spec in H as (d & _ & Hm & _).
  now apply first_match_In in Hm.
Qed.

(** A match of [LEXER] always has a group that took part in it, so the
    defensive [throw] after the [for] loop is dead code: no call of [next],
    in any state of the generator, raises its error. *)
Theorem all_groups_empty_unreachable (g : Generator) :
  next g <> Raised (Error (js "All groups empty!")).
Proof.
  assert (Hloop : forall code li e vars,
            tokenize_loop code li e vars
              <> Raised (Error (js "All groups empty!"))).
  { intros code li e vars. unfold tokenize_loop, exec.
    destruct (length code <? li).
    - destruct (negb (e =? length code)); discriminate.
    - destruct (search (skipn li code) li) as [[j [k t]]|] eqn:Hs.
      + cbn [index groups].
        rewrite (first_group_groups_of k t (search_In _ _ _ _ _ Hs)).
        destruct (negb (j =? e)); discriminate.
      + destruct (negb (e =? length code)); discriminate. }
  unfold next. destruct (gen_pc g); try apply Hloop. discriminate.
Qed.

(** ** Which of the two lex errors *)

Lemma search_none_all (l : str) (i : nat) :
  search l i = None <-> forall d, first_match LEXER (skipn d l) = None.
Proof.
  revert i. induction l as [|c l IH]; intros i; cbn [search].
  - rewrite first_match_nil. split; [|reflexivity].
    intros _ d. rewrite skipn_nil. apply first_match_nil.
  - destruct (first_match LEXER (c :: l)) as [m|] eqn:Hm.
    + split; [discriminate|]. intros H. specialize (H 0). cbn [skipn] in H.
      congruence.
    + rewrite IH. split.
      * intros H [|d]; [exact Hm|apply H].
      * intros H d. apply (H (S d)).
Qed.

(** The turn of the loop that throws: no alternative matches at the offset
    of the scan, and the text of the error tells whether one matches
    further on. *)
Lemma tokenize_loop_raised (code : str) (p : nat) (vars : option (kind * str))
    (e : JsError) :
  p <= length code ->
  tokenize_loop code p p vars = Raised e ->
  exists c,
    nth_error code p = Some c /\
    first_match LEXER (skipn p code) = None /\
    e = Error (match search (skipn p code) p with
               | Some _ => js "Unexpected token "
               | None => js "Unexpected token end "
               end ++ [c]).
Proof.
  intros Hp. pose proof (tokenize_loop_cases code p vars Hp) as H.
  destruct (first_match LEXER (skipn p code)) as [[k t]|] eqn:Hm.
  { rewrite H. discriminate. }
  destruct (nth_error code p) as [c|] eqn:Hc; [|rewrite H; discriminate].
  clear H. intros Hr. exists c. repeat split.
  unfold tokenize_loop, exec, charAt in Hr. rewrite Hc in Hr.
  replace (length code <? p) with false in Hr
    by (symmetry; apply Nat.ltb_ge; lia).
  destruct (search (skipn p code) p) as [[j [k t]]|] eqn:Hs.
  - cbn [index] in Hr. apply (search_later _ _ _ _ Hm) in Hs.
    apply Nat.eqb_neq in Hs. rewrite Hs in Hr. now injection Hr as <-.
  - destruct (negb (p =? length code)); [now injection Hr as <-|discriminate].
Qed.

Lemma drain_raised (fuel : nat) (g : Generator) (toks : list Token)
    (e : JsError) :
  gen_ok g -> drain fuel g = Some (toks, Some e) ->
  exists g',
    gen_ok g' /\ gen_code g' = gen_code g /\
    scan_pos g' = scan_pos g + length (concat (map text toks)) /\
    next g' = Raised e.
Proof.
  revert g toks. induction fuel as [|fuel IH]; intros g toks Hok;
    [discriminate|].
  cbn [drain]. destruct (next g) as [tok g1|g1|e1] eqn:Hn.
  - destruct (drain fuel g1) as [[toks1 r1]|] eqn:Hd; [|discriminate].
    intros [= <- ->].
    destruct (next_yield_ok _ _ _ Hok Hn) as (Hok1 & Hcode & _ & _ & Hsp & _).
    destruct (IH g1 toks1 Hok1 Hd) as (g' & Hok' & Hcode' & Hsp' & Hn').
    exists g'. repeat split; auto; [congruence|].
    cbn [map concat]. rewrite length_app. lia.
  - discriminate.
  - intros [= <- <-]. exists g. repeat split; auto.
Qed.

(** When the stream of a text ends with an error, the tokens before it stop
    at a character that no alternative matches.  The error is
    ["Unexpected token"] with that character when some alternative matches
    further on in the text, and ["Unexpected token end"] with it when none
    does up to the end. *)
Theorem lex_error_message (code : str) (toks : list Token) (e : JsError) :
  tokens code = Some (toks, Some e) ->
  exists c,
    nth_error code (length (concat (map text toks))) = Some c /\
    ((exists d, first_match LEXER
                  (skipn (length (concat (map text toks)) + d) code) <> None) ->
     e = Error (js "Unexpected token " ++ [c])) /\
    ((forall d, first_match LEXER
                  (skipn (length (concat (map text toks)) + d) code) = None) ->
     e = Error (js "Unexpected token end " ++ [c])).
Proof.
  intros Htoks.
  destruct (drain_raised _ (tokenize code) toks e Logic.I Htoks)
    as (g & Hok & Hcode & Hsp & Hn).
  cbn [tokenize scan_pos gen_pc gen_code Nat.add] in Hcode, Hsp.
  set (p := length (concat (map text toks))) in *.
  assert (Hloop : exists vars, tokenize_loop code p p vars = Raised e /\
                               p <= length code).
  { destruct g as [code' pc]. cbn [gen_code] in Hcode. subst code'.
    unfold next, gen_ok, scan_pos in *. cbn [gen_pc gen_code] in *.
    destruct pc as [|li e0 ty tx|]; [| |discriminate].
    - exists None. rewrite <- Hsp. split; [exact Hn|lia].
    - destruct Hok as [-> Hle]. rewrite Hsp in Hn, Hle.
      exists (Some (ty, tx)). now split. }
  destruct Hloop as (vars & Hloop & Hp).
  destruct (tokenize_loop_raised _ _ _ _ Hp Hloop) as (c & Hc & Hm & He).
  exists c. split; [exact Hc|]. split.
  - intros [d Hd]. destruct (search (skipn p code) p) eqn:Hs; [exact He|].
    exfalso. apply Hd. rewrite Nat.add_comm, <- skipn_skipn.
    now apply (proj1 (search_none_all _ p)).
  - intros Hall. destruct (search (skipn p code) p) eqn:Hs; [|exact He].
    exfalso.
    assert (Hnone : search (skipn p code) p = None).
    { apply search_none_all. intros d. rewrite skipn_skipn, Nat.add_comm.
      apply Hall. }
    congruence.
Qed.

Lemma lex_error_message_witness :
  exists c,
    nth_error (js "1 $") 2 = Some c /\
    ((exists d, first_match LEXER (skipn (2 + d) (js "1 $")) <> None) ->
     Error (js "Unexpected token end $") = Error (js "Unexpected token " ++ [c])) /\
    ((forall d, first_match LEXER (skipn (2 + d) (js "1 $")) = None) ->
     Error (js "Unexpected token end $")
       = Error (js "Unexpected token end " ++ [c])).
Proof.
  apply (lex_error_message (js "1 $")
           [ {| type := value; text := js "1" |};
             {| type := whitespace; text := js " " |} ]
           (Error (js "Unexpected token end $"))).
  reflexivity.
Defined.

(** ** The shape of tokens *)

Lemma span_fst_all (p : char -> bool) (l : str) :
  forallb p (fst (span p l)) = true.
Proof.
  induction l as [|c l IH]; cbn [span]; [reflexivity|].
  destruct (p c) eqn:Hc; [|reflexivity].
  destruct (span p l) as [run rest]. cbn [fst forallb] in *.
  now rewrite Hc, IH.
Qed.

Lemma span_snd_head (p : char -> bool) (l : str) :
  match snd (span p l) with [] => True | c :: _ => p c = false end.
Proof.
  induction l as [|c l IH]; cbn [span]; [exact Logic.I|].
  destruct (p c) eqn:Hc; [|exact Hc].
  now destruct (span p l) as [run rest].
Qed.

Lemma many1_spec (p : char -> bool) (l t : str) :
  many1 p l = Some t ->
  t <> [] /\ forallb p t = true /\
  exists rest, l = t ++ rest /\
               match rest with [] => True | c :: _ => p c = false end.
Proof.
  unfold many1. pose proof (span_app p l) as Happ.
  pose proof (span_fst_all p l) as Hall.
  pose proof (span_snd_head p l) as Hhead.
  destruct (fst (span p l)) as [|c run]; [discriminate|].
  intros [= <-]. repeat split; [discriminate|exact Hall|].
  exists (snd (span p l)). now split.
Qed.

(** What an alternative has matched is, on its own, a match of the same
    alternative. *)
Lemma match_kind_self (k : kind) (l t : str) :
  match_kind k l = Some t -> match_kind k t = Some t.
Proof.
  assert (Hlit : forall c, lit c l = Some t -> lit c t = Some t).
  { intros c. unfold lit. destruct l as [|x l']; [discriminate|].
    destruct (N.eqb x c) eqn:Hx; [|discriminate].
    intros [= <-]. now rewrite Hx. }
  assert (Hmany : forall p, many1 p l = Some t -> many1 p t = Some t).
  { intros p H. apply many1_spec in H as (Hne & Hall & _).
    unfold many1. rewrite (span_whole p t Hall). cbn [fst].
    destruct t; [congruence|reflexivity]. }
  destruct k; cbn [match_kind]; auto.
  destruct l as [|q l']; [discriminate|].
  destruct (N.eqb q dquote) eqn:Hq; [|discriminate].
  pose proof (span_fst_all is_not_quote l') as Hall.
  pose proof (span_snd_head is_not_quote l') as Hhead.
  destruct (span is_not_quote l') as [[|b body] [|q' rest]];
    try discriminate.
  intros [= <-]. cbn [fst snd] in *.
  assert (Hspan : span is_not_quote ((b :: body) ++ [q'])
                  = (b :: body, [q'])) by now apply span_all.
  cbn [app] in Hspan |- *. now rewrite Hq, Hspan.
Qed.

(** Every token of a stream has a text that is not empty, a kind of the
    lexer (never the end of the input), and a text that its kind matches
    as a whole: a bare value is made of letters, digits, colons and hyphens
    only, a quoted text stands between two quotes, and so on. *)
Theorem tokens_shape (code : str) (toks : list Token) (r : option JsError)
    (tok : Token) :
  tokens code = Some (toks, r) -> In tok toks ->
  text tok <> [] /\ In (type tok) LEXER /\
  match_kind (type tok) (text tok) = Some (text tok).
Proof.
  intros Htoks Hin. apply In_nth_error in Hin as [i Hi].
  pose proof (drain_tokens _ (tokenize code) toks r Logic.I Htoks i tok Hi)
    as Hm.
  destruct (first_match_prefix _ _ _ _ Hm) as [Hne _].
  destruct (first_match_In _ _ _ _ Hm) as [Hk Hmatch].
  repeat split; auto. now apply (match_kind_self _ _ _ Hmatch).
Qed.

Lemma tokens_shape_witness :
  js "A1:B2" <> [] /\ In value LEXER /\
  match_kind value (js "A1:B2") = Some (js "A1:B2").
Proof.
  apply (tokens_shape (js "sum(A1:B2)")
           [ {| type := value; text := js "sum" |};
             {| type := lparen; text := js "(" |};
             {| type := value; text := js "A1:B2" |};
             {| type := rparen; text := js ")" |} ]
           None {| type := value; text := js "A1:B2" |}).
  - reflexivity.
  - cbn [In]. auto.
Defined.

(** Bare values and white space are greedy: such a token is a run of its
    class that the text does not continue, so two bare values, or a bare
    value and a minus sign, never touch. *)
Theorem tokens_maximal (code : str) (toks : list Token) (r : option JsError)
    (i : nat) (tok : Token) (p : char -> bool) :
  tokens code = Some (toks, r) -> nth_error toks i = Some tok ->
  run_class (type tok) = Some p ->
  forallb p (text tok) = true /\
  match skipn (offset_of toks i + length (text tok)) code with
  | [] => True
  | c :: _ => p c = false
  end.
Proof.
  intros Htoks Hi Hclass.
  pose proof (drain_tokens _ (tokenize code) toks r Logic.I Htoks i tok Hi)
    as Hm.
  cbn [tokenize scan_pos gen_pc gen_code Nat.add] in Hm.
  destruct (first_match_In _ _ _ _ Hm) as [_ Hmatch].
  assert (Hmany : many1 p (skipn (offset_of toks i) code) = Some (text tok)).
  { destruct (type tok); try discriminate; cbn [run_class] in Hclass;
      injection Hclass as <-; exact Hmatch. }
  apply many1_spec in Hmany as (_ & Hall & rest & Hrest & Hhead).
  split; [exact Hall|].
  now rewrite (skipn_after_prefix _ _ _ _ Hrest).
Qed.

Lemma tokens_maximal_witness :
  forallb is_value_char (js "2018-01-01") = true /\
  match skipn (0 + length (js "2018-01-01")) (js "2018-01-01 - 1") with
  | [] => True
  | c :: _ => is_value_char c = false
  end.
Proof.
  apply (tokens_maximal (js "2018-01-01 - 1")
           [ {| type := value; text := js "2018-01-01" |};
             {| type := whitespace; text := js " " |};
             {| type := minus; text := js "-" |};
             {| type := whitespace; text := js " " |};
             {| type := value; text := js "1" |} ]
           None 0 {| type := value; text := js "2018-01-01" |} is_value_char);
    reflexivity.
Defined.

(** * Invariants of the parser *)

Module Invariant.
Import Parser.

Lemma ensures_bind {I A B : Type} (Q : B -> t I -> Prop) (m : M I A)
    (k : A -> M I B) (p : t I) :
  ensures (fun a p' => ensures Q (k a p')) (m p) -> ensures Q (bind m k p).
Proof. unfold bind. now destruct (m p). Qed.

Lemma ensures_weaken {S A : Type} (P Q : A -> S -> Prop) (r : outcome S A) :
  ensures P r -> (forall a p, P a p -> Q a p) -> ensures Q r.
Proof. destruct r; cbn; auto. Qed.

Section Iterator.

Context {I : Type} (next : I -> IterResult I) (J : t I -> Prop).

Hypothesis consume_J :
  forall n ty p, J p -> ensures (fun _ p' => J p') (consume next n ty p).

Lemma expect_J (n : nat) (ty : kind) (p : t I) :
  J p -> ensures (fun _ p' => J p') (expect next n ty p).
Proof.
  intros Hp. unfold expect. apply ensures_bind.
  eapply ensures_weaken; [apply consume_J, Hp|].
  intros [tok|] p' Hp'; [exact Hp'|exact Logic.I].
Qed.

(** One call in a method: what it ensures, then what follows it. *)
Ltac after H :=
  apply ensures_bind; eapply ensures_weaken; [apply H; auto|]; cbn beta.

Ltac token :=
  apply ensures_bind; eapply ensures_weaken; [apply consume_J; assumption|];
  cbn beta;
  let tok := fresh "tok" in
  let p' := fresh "p" in
  let Hp := fresh "Hp" in
  intros [tok|] p' Hp.

Lemma operator_node (k : kind) (l r : term) :
  In k [plus; minus; times; divided] ->
  well_formed l -> well_formed r ->
  well_formed (Arr [Str (TOKEN_TYPES k); l; r]).
Proof.
  intros Hk Hl Hr. cbn [well_formed]. split; [|now repeat split].
  left. split; [|reflexivity]. now apply in_map.
Qed.

Lemma grammar_ensures_all (n : nat) : grammar_ensures next J n.
Proof.
  induction n as [|n IH]; intros p Hp good.
  - repeat split; intros; exact Logic.I.
  - assert (IHe : forall q, J q -> ensures good (expr next n q))
      by (intros q Hq; apply (IH q Hq)).
    assert (IHsl : forall tm q, J q -> well_formed tm ->
                                ensures good (sum_loop next n tm q))
      by (intros tm q Hq; apply (IH q Hq)).
    assert (IHd : forall q, J q -> ensures good (summand next n q))
      by (intros q Hq; apply (IH q Hq)).
    assert (IHdl : forall tm q, J q -> well_formed tm ->
                                 ensures good (summand_loop next n tm q))
      by (intros tm q Hq; apply (IH q Hq)).
    assert (IHf : forall q, J q -> ensures good (factor next n q))
      by (intros q Hq; apply (IH q Hq)).
    assert (IHa : forall q, J q ->
              ensures (fun args p' =>
                         (exists arg, args = [arg] /\ well_formed arg) /\ J p')
                (arglist next n q))
      by (intros q Hq; apply (IH q Hq)).
    assert (IHs : forall q, J q -> ensures good (sum next n q))
      by (intros q Hq; apply (IH q Hq)).
    clear IH.
    repeat split; intros;
      cbn [expr sum sum_loop summand summand_loop factor arglist].
    + (* expr *) now apply IHs.
    + (* sum *)
      after IHd. intros tm p1 [Htm Hp1]. now apply IHsl.
    + (* sum_loop *)
      token.
      * after IHd. intros rhs p2 [Hrhs Hp2]. apply IHsl; auto.
        apply (operator_node plus); cbn [In]; auto.
      * token; [|now split].
        after IHd. intros rhs p3 [Hrhs Hp3]. apply IHsl; auto.
        apply (operator_node minus); cbn [In]; auto.
    + (* summand *)
      after IHf. intros tm p1 [Htm Hp1]. now apply IHdl.
    + (* summand_loop *)
      token.
      * after IHf. intros rhs p2 [Hrhs Hp2]. apply IHdl; auto.
        apply (operator_node times); cbn [In]; auto.
      * token; [|now split].
        after IHf. intros rhs p3 [Hrhs Hp3]. apply IHdl; auto.
        apply (operator_node divided); cbn [In]; auto.
    + (* factor *)
      token.
      * token; [|now split].
        destruct (FUNCTION_NAME (text tok)) eqn:Hname; cbn [negb];
          [|exact Logic.I].
        after IHa. intros args p3 [(arg & -> & Harg) Hp3].
        after expect_J. intros _ p4 Hp4. split; [|exact Hp4].
        cbn [well_formed]. split; [right|]; now split.
      * token; [now split|].
        token; [|exact Logic.I].
        after IHe. intros tm p4 [Htm Hp4].
        after expect_J. intros _ p5 Hp5. now split.
    + (* arglist *)
      after IHe. intros first p1 [Hfirst Hp1].
      token; [exact Logic.I|]. split; [|assumption]. now exists first.
Qed.

Lemma toplevel_ensures (n : nat) (p : t I) :
  J p ->
  ensures (fun tm p' => well_formed tm /\ J p') (toplevel next n p).
Proof.
  intros Hp. unfold toplevel.
  apply ensures_bind. eapply ensures_weaken;
    [apply (grammar_ensures_all n p Hp)|].
  cbn beta. intros tm p1 [Htm Hp1].
  apply ensures_bind. eapply ensures_weaken; [now apply expect_J|].
  cbn beta. intros _ p2 Hp2. now split.
Qed.

End Iterator.

End Invariant.

Lemma run_well_formed {I : Type} (next : I -> IterResult I) (n : nat)
    (tokenIter : I) (tm : term) :
  run next n tokenIter = Returns tm -> well_formed tm.
Proof.
  unfold run, Parser.new, Parser.parse.
  destruct (Parser.advance next n tokenIter) as [[] p| |]; try discriminate.
  assert (Hconsume : forall m ty q, True ->
            ensures (fun _ (_ : Parser.t I) => True)
              (Parser.consume next m ty q)).
  { intros m ty q _. now destruct (Parser.consume next m ty q). }
  pose proof (Invariant.toplevel_ensures next (fun _ => True) Hconsume
                n p Logic.I) as H.
  destruct (Parser.toplevel next n p) as [tm' p'| |]; try discriminate.
  intros [= <-]. apply H.
Qed.

(** A tree that [parse] returns has no empty array: each array is an
    operator with its two operands or a function name with its one
    argument. *)
Theorem parse_well_formed (code : str) (tm : term) :
  parse code = Returns tm -> well_formed tm.
Proof. apply run_well_formed. Qed.

Lemma parse_well_formed_witness :
  well_formed (Arr [Str (js "+"); Str (js "1");
                    Arr [Str (js "*"); Str (js "2"); Str (js "3")]]).
Proof.
  apply (parse_well_formed (js "1 + 2 * 3")). vm_compute. reflexivity.
Defined.

(** ** The cursor *)

Lemma advance_fresh {I : Type} (next : I -> IterResult I) (n : nat) (g : I)
    (p : Parser.t I) :
  Parser.advance next n g = Ret tt p ->
  Parser.attemptedTypes p = [] /\ type (Parser.cur p) <> whitespace.
Proof.
  revert g. induction n as [|n IH]; intros g; [discriminate|].
  cbn [Parser.advance]. destruct (next g) as [tok g'|g'|e]; try discriminate.
  - destruct (kind_eqb (type tok) whitespace) eqn:Hws; [apply IH|].
    intros [= <-]. split; [reflexivity|]. cbn [Parser.cur].
    intros Heq. rewrite Heq in Hws. discriminate.
  - intros [= <-]. split; [reflexivity|discriminate].
Qed.

(** The contract of [consume].  When the current token is of the kind asked
    for, it is returned, and the parser has moved on to a token that is not
    white space, with nothing recorded as attempted on it.  Otherwise
    nothing is returned, the token and the iterator stay, and the kind is
    recorded as attempted. *)
Theorem consume_contract {I : Type} (next : I -> IterResult I) (n : nat)
    (ty : kind) (p p' : Parser.t I) (r : option Token) :
  Parser.consume next n ty p = Ret r p' ->
  match r with
  | Some tok =>
      tok = Parser.cur p /\ type tok = ty /\
      Parser.attemptedTypes p' = [] /\
      type (Parser.cur p') <> whitespace
  | None =>
      type (Parser.cur p) <> ty /\
      Parser.cur p' = Parser.cur p /\
      Parser.tokenIter p' = Parser.tokenIter p /\
      In ty (Parser.attemptedTypes p') /\
      incl (Parser.attemptedTypes p) (Parser.attemptedTypes p')
  end.
Proof.
  unfold Parser.consume.
  destruct (kind_eqb (type (Parser.cur p)) ty) eqn:Hty.
  - destruct (Parser.advance next n (Parser.tokenIter p)) as [[] p1| |] eqn:Ha;
      try discriminate.
    intros [= <- <-]. destruct (advance_fresh next _ _ _ Ha) as [Hatt Hcur].
    repeat split; auto. now destruct (type (Parser.cur p)), ty.
  - intros [= <- <-]. cbn [Parser.cur Parser.tokenIter Parser.attemptedTypes].
    repeat split.
    + intros Heq. rewrite Heq in Hty. now destruct ty.
    + apply add_In.
    + intros k Hk. now apply add_incl.
Qed.

Lemma consume_contract_witness :
  symbol plus = symbol plus /\ type (symbol plus) = plus /\
  @nil kind = [] /\ type (word (js "2")) <> whitespace.
Proof.
  apply (consume_contract next_stream 1 plus
           {| Parser.tokenIter := ([word (js "2")], None) : Stream;
              Parser.attemptedTypes := [lparen; times; divided];
              Parser.cur := symbol plus |}
           {| Parser.tokenIter := ([], None) : Stream;
              Parser.attemptedTypes := [];
              Parser.cur := word (js "2") |}
           (Some (symbol plus))).
  reflexivity.
Defined.

(** ** No tree for a text that cannot be scanned *)

Lemma advance_stream_ok (n : nat) (s : Stream) (p : Parser.t Stream) :
  no_eof (fst s) ->
  Parser.advance next_stream n s = Ret tt p -> stream_ok (snd s) p.
Proof.
  revert s. induction n as [|n IH]; intros [toks e] Hno; [discriminate|].
  cbn [Parser.advance next_stream fst snd] in *.
  destruct toks as [|tok toks].
  - destruct e; [discriminate|]. intros [= <-].
    repeat split; auto.
  - inversion Hno as [|? ? Htok Htoks]; subst.
    destruct (kind_eqb (type tok) whitespace).
    + intros H. apply (IH (toks, e) Htoks H).
    + intros [= <-]. repeat split; auto. cbn [Parser.cur]. congruence.
Qed.

Lemma consume_stream_ok (e : option JsError) (n : nat) (ty : kind)
    (p : Parser.t Stream) :
  stream_ok e p ->
  ensures (fun _ p' => stream_ok e p') (Parser.consume next_stream n ty p).
Proof.
  intros (Heof & Hno & He). unfold Parser.consume.
  destruct (kind_eqb (type (Parser.cur p)) ty).
  - destruct (Parser.advance next_stream n (Parser.tokenIter p))
      as [[] p'| |] eqn:Ha; cbn [ensures]; auto.
    rewrite <- He. now apply (advance_stream_ok n).
  - cbn [ensures]. repeat split; auto.
Qed.

(** A parser on a stream that ends with an error returns no tree: it comes
    to the end of the stream before it can find the end of the input. *)
Lemma parse_stream_returns (n : nat) (toks : list Token)
    (e : option JsError) (tm : term) :
  no_eof toks -> parse_stream n (toks, e) = Returns tm -> e = None.
Proof.
  intros Hno. unfold parse_stream, run, Parser.new, Parser.parse.
  destruct (Parser.advance next_stream n (toks, e)) as [[] p| |] eqn:Ha;
    try discriminate.
  pose proof (advance_stream_ok n (toks, e) p Hno Ha) as Hp.
  cbn [snd] in Hp. unfold Parser.toplevel, Parser.bind.
  pose proof (Invariant.grammar_ensures_all next_stream (stream_ok e)
                (consume_stream_ok e) n p Hp) as (He & _).
  destruct (Parser.expr next_stream n p) as [tm1 p1| |]; try discriminate.
  cbn [ensures] in He. destruct He as (_ & Heof & _ & Hsnd).
  unfold Parser.expect, Parser.bind, Parser.consume.
  destruct (kind_eqb (type (Parser.cur p1)) eof) eqn:Hty.
  - intros _. rewrite <- Hsnd, Heof; [reflexivity|].
    now destruct (type (Parser.cur p1)).
  - discriminate.
Qed.

Lemma tokens_no_eof (code : str) (toks : list Token) (r : option JsError) :
  tokens code = Some (toks, r) -> no_eof toks.
Proof.
  intros Htoks. apply Forall_forall. intros tok Hin Heof.
  apply In_nth_error in Hin as [i Hi].
  pose proof (drain_tokens _ (tokenize code) toks r Logic.I Htoks i tok Hi)
    as Hm.
  apply first_match_In in Hm as [Hk _]. rewrite Heof in Hk.
  unfold LEXER in Hk. cbn [In] in Hk. intuition discriminate.
Qed.

(** [parse] returns a tree only for a text that the tokenizer covers from
    one end to the other without an error: an uncovered character anywhere,
    even after a formula that is complete, makes [parse] throw. *)
Theorem parse_returns_scanned (code : str) (tm : term) :
  parse code = Returns tm ->
  exists toks,
    tokens code = Some (toks, None) /\ concat (map text toks) = code.
Proof.
  intros Hparse.
  destruct (drain_spec (S (length code)) (tokenize code) Logic.I)
    as (toks & r & Hd & Hr); [cbn; lia|].
  fold (tokens code) in Hd.
  unfold parse in Hparse. rewrite (parse_scanned _ _ _ Hd) in Hparse.
  pose proof (parse_stream_returns _ _ _ _ (tokens_no_eof _ _ _ Hd) Hparse)
    as ->.
  exists toks. split; [exact Hd|exact Hr].
Qed.

Lemma parse_returns_scanned_witness :
  exists toks,
    tokens (js "A1 * 2") = Some (toks, None) /\
    concat (map text toks) = js "A1 * 2".
Proof.
  apply (parse_returns_scanned (js "A1 * 2")
           (Arr [Str (js "*"); Str (js "A1"); Str (js "2")])).
  vm_compute. reflexivity.
Defined.

(** ** White space is seen by [advance] only *)

Module Skip.
Import Parser.

Section Iterators.

Context {I J : Type} (next : I -> IterResult I) (next' : J -> IterResult J).
Context (R : I -> J -> Prop).

(** The two iterators need not go step by step: it is enough that
    [advance] leaves them in related states with the same token. *)
Hypothesis advance_within :
  forall n i j, R i j -> within R (advance next n i) (advance next' n j).

Lemma bind_within {A B : Type} (m : M I A) (m' : M J A)
    (k : A -> M I B) (k' : A -> M J B) (p : t I) (q : t J) :
  within R (m p) (m' q) ->
  (forall a p1 q1, similar_parsers R p1 q1 -> within R (k a p1) (k' a q1)) ->
  within R (bind m k p) (bind m' k' q).
Proof.
  unfold bind. intros [H|H] Hk; [rewrite H; now left|].
  destruct (m p) as [a p1| |], (m' q) as [a' q1| |]; cbn in H;
    try contradiction; try (now right); try (now left).
  destruct H as [<- H]. now apply Hk.
Qed.

Lemma consume_within (n : nat) (ty : kind) (p : t I) (q : t J) :
  similar_parsers R p q ->
  within R (consume next n ty p) (consume next' n ty q).
Proof.
  intros (Hit & Hatt & Hcur). unfold consume. rewrite <- Hcur, <- Hatt.
  destruct (kind_eqb (type (cur p)) ty).
  - destruct (advance_within n _ _ Hit) as [H|H]; [rewrite H; now left|].
    destruct (advance next n (tokenIter p)) as [[] p1| |],
      (advance next' n (tokenIter q)) as [[] q1| |];
      cbn in H; try contradiction; try (now left);
      right; cbn; intuition auto.
  - right. cbn. repeat split; auto.
Qed.

Lemma throwUnexpectedToken_within {A : Type} (p : t I) (q : t J) :
  similar_parsers R p q ->
  within R (@throwUnexpectedToken I A p) (@throwUnexpectedToken J A q).
Proof.
  intros (_ & Hatt & Hcur). right.
  unfold throwUnexpectedToken, unexpectedToken. cbn. now rewrite Hatt, Hcur.
Qed.

Lemma expect_within (n : nat) (ty : kind) (p : t I) (q : t J) :
  similar_parsers R p q ->
  within R (expect next n ty p) (expect next' n ty q).
Proof.
  intros Hpq. unfold expect. apply bind_within.
  - now apply consume_within.
  - intros [tok|] p1 q1 H1; [right; exact (conj eq_refl H1)|].
    now apply throwUnexpectedToken_within.
Qed.

Ltac within_step IH :=
  repeat first
    [ assumption
    | apply consume_within
    | apply expect_within
    | apply throwUnexpectedToken_within
    | apply IH
    | apply bind_within
    | intros ? ? ? ?
    | match goal with
      | |- within _ (ret _ _) (ret _ _) => right; split; [reflexivity|]
      | |- within _ (throw _ _) (throw _ _) => right; reflexivity
      | |- within _ (match ?x with _ => _ end _) _ => destruct x
      | |- within _ ((if ?b then _ else _) _) _ => destruct b
      end ].

Lemma grammar_within_all (n : nat) : grammar_within next next' R n.
Proof.
  induction n as [|n IH]; intros p q Hpq.
  - repeat split; intros; now left.
  - assert (He : forall p q, similar_parsers R p q ->
        within R (expr next n p) (expr next' n q))
      by (intros p0 q0 H0; apply (IH p0 q0 H0)).
    assert (Hs : forall p q, similar_parsers R p q ->
        within R (sum next n p) (sum next' n q))
      by (intros p0 q0 H0; apply (IH p0 q0 H0)).
    assert (Hsl : forall tm p q, similar_parsers R p q ->
        within R (sum_loop next n tm p) (sum_loop next' n tm q))
      by (intros tm p0 q0 H0; apply (IH p0 q0 H0)).
    assert (Hd : forall p q, similar_parsers R p q ->
        within R (summand next n p) (summand next' n q))
      by (intros p0 q0 H0; apply (IH p0 q0 H0)).
    assert (Hdl : forall tm p q, similar_parsers R p q ->
        within R (summand_loop next n tm p) (summand_loop next' n tm q))
      by (intros tm p0 q0 H0; apply (IH p0 q0 H0)).
    assert (Hf : forall p q, similar_parsers R p q ->
        within R (factor next n p) (factor next' n q))
      by (intros p0 q0 H0; apply (IH p0 q0 H0)).
    assert (Ha : forall p q, similar_parsers R p q ->
        within R (arglist next n p) (arglist next' n q))
      by (intros p0 q0 H0; apply (IH p0 q0 H0)).
    clear IH.
    repeat split; intros;
      cbn [expr sum sum_loop summand summand_loop factor arglist].
    + now apply Hs.
    + within_step Hd.
    + within_step Hd; now apply Hsl.
    + within_step Hf.
    + within_step Hf; now apply Hdl.
    + within_step Ha; now apply He.
    + within_step He.
Qed.

Lemma run_within (n : nat) (i : I) (j : J) :
  R i j -> run next n i <> Exhausted -> run next' n j = run next n i.
Proof.
  intros Hij. unfold run, new, parse, toplevel.
  destruct (advance_within n i j Hij) as [H|H]; [rewrite H; congruence|].
  destruct (advance next n i) as [[] p| |], (advance next' n j) as [[] q| |];
    cbn in H; try contradiction; try congruence.
  destruct H as [_ Hpq].
  assert (Htop : within R
            (bind (expr next n)
               (fun tm => bind (expect next n eof) (fun _ => ret tm)) p)
            (bind (expr next' n)
               (fun tm => bind (expect next' n eof) (fun _ => ret tm)) q)).
  { apply bind_within; [now apply grammar_within_all|].
    intros tm p1 q1 H1. apply bind_within; [now apply expect_within|].
    intros _ p2 q2 H2. right. exact (conj eq_refl H2). }
  destruct Htop as [Htop|Htop]; [rewrite Htop; congruence|].
  destruct (bind (expr next n) _ p) as [tm p1| |],
    (bind (expr next' n) _ q) as [tm' q1| |];
    cbn in Htop; try contradiction; try congruence.
  now destruct Htop as [<- _].
Qed.

End Iterators.

End Skip.

Lemma advance_without_spaces (n : nat) (s s' : Stream) :
  s' = without_spaces s ->
  within (fun s s' => s' = without_spaces s)
    (Parser.advance next_stream n s) (Parser.advance next_stream n s').
Proof.
  intros ->. revert s. induction n as [|n IH]; intros [toks e]; [now left|].
  destruct toks as [|tok toks].
  - right. destruct e; cbn; repeat split.
  - unfold without_spaces. cbn [fst snd filter].
    destruct (kind_eqb (type tok) whitespace) eqn:Hws; cbn [negb].
    + assert (Hskip : Parser.advance next_stream (S n) (tok :: toks, e)
                      = Parser.advance next_stream n (toks, e))
        by (cbn [Parser.advance next_stream]; now rewrite Hws).
      rewrite Hskip. clear Hskip.
      destruct (IH (toks, e)) as [H|H]; [now left|].
      unfold without_spaces in H. cbn [fst snd] in H.
      destruct (Fuel.advance_refines next_stream n (S n)
                  (filter (fun tok => negb (kind_eqb (type tok) whitespace))
                     toks, e)) as [H'|H']; [lia| |].
      * rewrite H' in H.
        destruct (Parser.advance next_stream n (toks, e)) as [[] p| |];
          cbn in H; try contradiction. now left.
      * rewrite <- H'. now right.
    + right. cbn [Parser.advance next_stream]. rewrite Hws.
      cbn. repeat split.
Qed.

(** The spaces of a stream make no difference to the parser. *)
Lemma parse_stream_without_spaces (n : nat) (s : Stream) :
  parse_stream n s <> Exhausted ->
  parse_stream n (without_spaces s) = parse_stream n s.
Proof.
  apply (Skip.run_within next_stream next_stream
           (fun s s' => s' = without_spaces s) advance_without_spaces).
  reflexivity.
Qed.

(** White space only separates tokens: two texts that have the same tokens
    once their white space is left out, and the same lex error if they have
    one, make [parse] end in the same way. *)
Theorem parse_white_space (code code' : str) (s s' : Stream) :
  tokens code = Some s -> tokens code' = Some s' ->
  without_spaces s = without_spaces s' ->
  parse code = parse code'.
Proof.
  intros Hs Hs' Heq.
  assert (Hstrip : forall c t, tokens c = Some t ->
            parse c = parse_stream (fuel_for c) (without_spaces t) /\
            parse_stream (fuel_for c) (without_spaces t) <> Exhausted).
  { intros c t Ht. pose proof (parse_total c) as Htotal.
    unfold parse in *. rewrite (parse_scanned _ _ _ Ht) in *.
    rewrite parse_stream_without_spaces by exact Htotal. now split. }
  destruct (Hstrip code s Hs) as [-> Hex].
  destruct (Hstrip code' s' Hs') as [-> Hex'].
  rewrite Heq in *. unfold parse_stream in *.
  destruct (Nat.le_ge_cases (fuel_for code) (fuel_for code')) as [Hle|Hle].
  - symmetry. now apply run_monotone.
  - now apply run_monotone.
Qed.

Lemma parse_white_space_witness :
  parse (js "sum (A1)+ 2") = parse (js " sum(A1) +2  ").
Proof.
  apply (parse_white_space (js "sum (A1)+ 2") (js " sum(A1) +2  ")
           ([word (js "sum"); space; symbol lparen; word (js "A1");
             symbol rparen; symbol plus; space; word (js "2")], None)
           ([space; word (js "sum"); symbol lparen; word (js "A1");
             symbol rparen; space; symbol plus; word (js "2");
             {| type := whitespace; text := js "  " |}], None));
    reflexivity.
Defined.

(** * [parse] as a whole *)

(** [parse] comes to an end on every text, with a tree or an error: the
    depth of the calls of the parser is bounded by four times the length of
    the text and four more, and a larger bound gives the same result. *)
Theorem parse_terminates (code : str) :
  parse code <> Exhausted /\
  forall n, fuel_for code <= n -> parse_with n code = parse code.
Proof.
  split; [apply parse_total|].
  intros n Hn. apply parse_with_monotone; [exact Hn|apply parse_total].
Qed.

Lemma parse_terminates_witness :
  parse_with 1000 (js "(1 + 2") = parse (js "(1 + 2").
Proof.
  apply (proj2 (parse_terminates (js "(1 + 2")) 1000).
  apply Nat.leb_le. vm_compute. reflexivity.
Defined.

(** That the tokens are scanned as the parser asks for them cannot be told
    from its result: [parse] ends as the parser does on the tokens
    collected beforehand, followed by the lex error if the scan ends with
    one. *)
Theorem parse_of_token_stream (code : str) :
  exists s : Stream,
    tokens code = Some s /\ parse code = parse_stream (fuel_for code) s.
Proof.
  destruct (drain_spec (S (length code)) (tokenize code) Logic.I)
    as (toks & r & Hd & _); [cbn; lia|].
  exists (toks, r). split; [exact Hd|]. now apply parse_scanned.
Qed.

(** Errors come in the order of reading: a bare value that is no function
    name, followed by an opening parenthesis and a token that is not white
    space, makes [parse] throw the error on the name, whatever comes after,
    a character that cannot be scanned included. *)
Theorem parse_reading_order (code f : str) (tok : Token)
    (rest : list Token) (r : option JsError) :
  tokens code = Some (word f :: symbol lparen :: tok :: rest, r) ->
  type tok <> whitespace -> FUNCTION_NAME f = false ->
  parse code = Throws (Error (f ++ js " is not a valid function name")).
Proof.
  intros Htoks Htok Hf. unfold parse.
  rewrite (parse_scanned _ _ _ Htoks).
  assert (Hws : kind_eqb (type tok) whitespace = false)
    by (destruct (type tok); try reflexivity; now contradiction Htok).
  assert (H5 : parse_stream 5 (word f :: symbol lparen :: tok :: rest, r)
               = Throws (Error (f ++ js " is not a valid function name"))).
  { rewrite run_stream_first by reflexivity.
    rewrite (toplevel_factor_throws next_stream 2 _
               (Error (f ++ js " is not a valid function name")));
      [reflexivity|].
    apply (factor_call_invalid next_stream 1 _
             {| Parser.tokenIter := (tok :: rest, r);
                Parser.attemptedTypes := [];
                Parser.cur := symbol lparen |}
             {| Parser.tokenIter := (rest, r);
                Parser.attemptedTypes := [];
                Parser.cur := tok |}
             (word f) (symbol lparen)); [reflexivity| |exact Hf].
    unfold Parser.consume. cbn [Parser.cur Parser.tokenIter symbol type
      kind_eqb Parser.advance next_stream]. now rewrite Hws. }
  rewrite <- H5. unfold parse_stream in *.
  apply run_monotone; [|rewrite H5; discriminate].
  destruct code as [|c code]; [discriminate|].
  unfold fuel_for. cbn [length]. lia.
Qed.

Lemma parse_reading_order_witness :
  parse (js "A1(2) $") = Throws (Error (js "A1 is not a valid function name")).
Proof.
  apply (parse_reading_order (js "A1(2) $") (js "A1") (word (js "2"))
           [symbol rparen; space]
           (Some (Error (js "Unexpected token end $"))));
    [reflexivity|discriminate|reflexivity].
Defined.

(** ** Characters outside quoted text *)

Lemma forallb_weaken (p q : char -> bool) (l : str) :
  (forall c, p c = true -> q c = true) ->
  forallb p l = true -> forallb q l = true.
Proof.
  intros Hpq. rewrite !forallb_forall. auto.
Qed.

(** The text of a token that is no quoted text is within the alphabet. *)
Lemma token_alphabet (k : kind) (l t : str) :
  match_kind k l = Some t -> k <> quoted -> forallb in_alphabet t = true.
Proof.
  assert (Hlit : forall c, In c [40; 41; 43; 42; 47; 44; hyphen]%N ->
            lit c l = Some t -> forallb in_alphabet t = true).
  { intros c Hc. unfold lit. destruct l as [|x l']; [discriminate|].
    destruct (N.eqb_spec x c); [|discriminate]. subst x.
    intros [= <-]. cbn [In] in Hc.
    repeat (destruct Hc as [<-|Hc]; [reflexivity|]). destruct Hc. }
  assert (Hmany : forall p, (forall c, p c = true -> in_alphabet c = true) ->
            many1 p l = Some t -> forallb in_alphabet t = true).
  { intros p Hp H. apply many1_spec in H as (_ & Hall & _).
    now apply (forallb_weaken p). }
  destruct k; cbn [match_kind]; intros H Hq; try congruence;
    try (now eapply Hlit; [|exact H]; cbn [In]; auto 10).
  - apply (Hmany is_value_char); [|exact H].
    intros c Hc. unfold in_alphabet. now rewrite Hc.
  - apply (Hmany is_space); [|exact H].
    intros c Hc. unfold in_alphabet. rewrite Hc.
    now rewrite orb_true_r.
Qed.

(** A text without a double quote that [parse] returns a tree for is
    written in the alphabet of the lexer: a decimal point, for one, makes
    [parse] throw. *)
Theorem parse_alphabet (code : str) (tm : term) :
  parse code = Returns tm -> forallb is_not_quote code = true ->
  forallb in_alphabet code = true.
Proof.
  intros Hparse Hquote.
  destruct (drain_spec (S (length code)) (tokenize code) Logic.I)
    as (toks & r & Hd & Hr); [cbn; lia|].
  fold (tokens code) in Hd.
  unfold parse in Hparse. rewrite (parse_scanned _ _ _ Hd) in Hparse.
  pose proof (parse_stream_returns _ _ _ _ (tokens_no_eof _ _ _ Hd) Hparse)
    as ->.
  cbn [tokenize scan_pos gen_pc gen_code skipn] in Hr.
  assert (Htoks : forall tok, In tok toks ->
            forallb in_alphabet (text tok) = true).
  { intros tok Hin. apply In_nth_error in Hin as [i Hi].
    pose proof (drain_tokens _ (tokenize code) toks None Logic.I Hd i tok Hi)
      as Hm.
    apply first_match_In in Hm as [_ Hm].
    apply (token_alphabet _ _ _ Hm). intros Hk. rewrite Hk in Hm.
    apply match_kind_self in Hm.
    assert (Hin : In dquote code).
    { rewrite <- Hr. apply in_concat. exists (text tok). split.
      - apply in_map. eapply nth_error_In, Hi.
      - cbn [match_kind] in Hm. destruct (text tok) as [|q t]; [discriminate|].
        destruct (N.eqb_spec q dquote); [|discriminate]. now left. }
    rewrite forallb_forall in Hquote. specialize (Hquote _ Hin).
    discriminate. }
  rewrite <- Hr. clear Hr Hd Hparse Hquote.
  induction toks as [|tok toks IH]; [reflexivity|].
  cbn [map concat]. rewrite forallb_app, Htoks by now left.
  apply IH. intros tok' Hin. apply Htoks. now right.
Qed.

Lemma parse_alphabet_witness :
  forallb in_alphabet (js "sum(A1:B2) / 2") = true.
Proof.
  apply (parse_alphabet (js "sum(A1:B2) / 2")
           (Arr [Str (js "/"); Arr [Str (js "sum"); Str (js "A1:B2")];
                 Str (js "2")])).
  - vm_compute. reflexivity.
  - reflexivity.
Defined.
